(** * The chunked transcription pipeline of algo-whisperer

    A shallow embedding of the transcription route
    ([server/routes/transcribe.js]) and of the audio splitter
    ([server/lib/ffmpeg.js]): window computation, overlap resolution of
    per-chunk segments, ordering of the fan-in, speaker normalisation and
    the temporary-file discipline of the route.

    Numbers.  JavaScript numbers are modelled as exact rationals [Q]:
    timestamps are seconds, possibly fractional.  Rounding of IEEE doubles
    is not modelled.  Array indices and counters are [nat].

    Strings are [string]; a missing ([undefined]) string field behaves in
    every test of the modelled code like the empty string (both are falsy),
    so it is modelled by [""]. *)

From Stdlib Require Import QArith Qround Qminmax Lqa Lia.
From stdpp Require Import base option list sorting strings gmap pretty.

Local Open Scope Q_scope.

(** ** Data model *)

(** A segment as the transcription backend reports it
    ([{start, end, text, speaker}]). *)
Record Segment := mkSegment {
  start : Q;
  end_ : Q;
  text : string;
  speaker : string
}.

(** ** Segment merger *)

Module Merge.

(** [Array.prototype.filter] predicates of [mergeChunkSegments]. *)
Definition keepExisting (overlapStart : Q) (seg : Segment) : bool :=
  Qle_bool (end_ seg) (overlapStart + 1).

Definition keepNew (overlapStart : Q) (seg : Segment) : bool :=
  Qle_bool (overlapStart - 1) (start seg).

(** [mergeChunkSegments(existingSegments, newSegments, chunkStartTime,
    overlapSeconds)].  The last argument is accepted and never read. *)
Definition mergeChunkSegments (existingSegments newSegments : list Segment)
    (chunkStartTime overlapSeconds : Q) : list Segment :=
  if (length existingSegments =? 0)%nat then newSegments
  else
    let overlapStart := chunkStartTime in
    let filteredExisting := List.filter (keepExisting overlapStart) existingSegments in
    let filteredNew := List.filter (keepNew overlapStart) newSegments in
    filteredExisting ++ filteredNew.

(** The merger as the specification words it: segments are _dropped_ by a
    strict comparison, the survivors are concatenated. *)
Definition Qlt_bool (a b : Q) : bool := negb (Qle_bool b a).

Fixpoint dropWhere (bad : Segment -> bool) (l : list Segment) : list Segment :=
  match l with
  | [] => []
  | s :: l' => if bad s then dropWhere bad l' else s :: dropWhere bad l'
  end.

Definition merge_spec (accumulated newSegments : list Segment)
    (chunkStartTime overlapSeconds : Q) : list Segment :=
  match accumulated with
  | [] => newSegments
  | _ :: _ =>
      let overlapStart := chunkStartTime in
      dropWhere (fun s => Qlt_bool (overlapStart + 1) (end_ s)) accumulated
      ++ dropWhere (fun s => Qlt_bool (start s) (overlapStart - 1)) newSegments
  end.

End Merge.


(** ** Effects: temporary files, console, exceptions *)

Module Eff.

(** What the route can observe and change: the files present in the upload
    directory, the lines written with [console.error] by the cleanup
    helpers, and the route's own [chunkFiles] array, which the [try] block
    fills and the [catch] block reads. *)
Record State := mkState {
  files : gset string;
  console : list string;
  chunkFiles : list string
}.

(** Outcome of a computation: a value, a thrown error (carrying
    [error.message]), or [Diverge] when a loop did not finish within the
    fuel it was given.  [Diverge] is not an exception: no handler sees it. *)
Inductive Result (A : Type) : Type :=
  | Ok (a : A)
  | Throw (message : string)
  | Diverge.
Arguments Ok {A} a.
Arguments Throw {A} message.
Arguments Diverge {A}.

Definition M (A : Type) : Type := State -> Result A * State.

Definition ret {A} (a : A) : M A := fun s => (Ok a, s).
Definition throw {A} (message : string) : M A := fun s => (Throw message, s).
Definition diverge {A} : M A := fun s => (Diverge, s).

Definition bind {A B} (m : M A) (k : A -> M B) : M B :=
  fun s =>
    match m s with
    | (Ok a, s') => k a s'
    | (Throw e, s') => (Throw e, s')
    | (Diverge, s') => (Diverge, s')
    end.

(** [try { m } catch (err) { handler err }] *)
Definition tryCatch {A} (m : M A) (handler : string -> M A) : M A :=
  fun s =>
    match m s with
    | (Throw e, s') => handler e s'
    | r => r
    end.

Definition liftResult {A} (r : Result A) : M A := fun s => (r, s).

Definition get : M State := fun s => (Ok s, s).
Definition modify (f : State -> State) : M unit := fun s => (Ok tt, f s).

End Eff.

Import Eff.

Declare Scope eff_scope.
Delimit Scope eff_scope with eff.
Notation "x <- m ;; k" := (bind m (fun x => k))
  (at level 100, m at next level, right associativity) : eff_scope.
Notation "m ;;; k" := (bind m (fun _ => k))
  (at level 100, right associativity) : eff_scope.

(** A chunk descriptor ([{path, startTime, endTime, isOriginal}]). *)
Record Chunk := mkChunk {
  path : string;
  startTime : Q;
  endTime : Q;
  isOriginal : bool
}.

(** What the backend returns for one audio file.  A missing [segments] is
    read as [[]] and a missing [duration] as a falsy number by the route
    ([result.segments || []], [result.duration || 0]); they are modelled by
    [[]] and [0]. *)
Record TranscriptionResult := mkResult {
  segments : list Segment;
  duration : Q;
  language : string
}.

(** [prompts/transcription.json].  The known speakers are only forwarded to
    the backend and are left to the backend oracle. *)
Record Config := mkConfig {
  unknown_speaker_labels : option (list string)
}.

(** The collaborators of one request, as oracles. *)
Record World := mkWorld {
  (** ffmpeg error of [extractAudio], if any *)
  extractError : option string;
  (** [ffprobe] of the extracted audio: [metadata.format.duration] *)
  ffprobeDuration : Result Q;
  (** [fs.statSync(p).size] for an existing file *)
  statSize : string -> Q;
  (** ffmpeg error when cutting the chunk with the given index, if any *)
  clipError : nat -> option string;
  (** [loadPrompt('transcription.json')] *)
  transcriptionConfig : Result Config;
  (** [openai.audio.transcriptions.create] on the file at the given path *)
  backend : string -> Result TranscriptionResult;
  (** order in which the chunk promises settle *)
  settleOrder : list nat;
  (** error thrown by [fs.unlinkSync] on the given path, if any *)
  unlinkError : string -> option string
}.

(** ** File helpers ([fs], [safeDelete], [cleanupFiles]) *)

Module Files.
Local Open Scope eff_scope.

Definition existsSync (filePath : string) : M bool :=
  s <- get ;; ret (bool_decide (filePath ∈ files s)).

Definition unlinkSync (w : World) (filePath : string) : M unit :=
  s <- get ;;
  if bool_decide (filePath ∈ files s) then
    match unlinkError w filePath with
    | Some e => throw e
    | None => modify (fun s => mkState (files s ∖ {[filePath]}) (console s) (chunkFiles s))
    end
  else throw "ENOENT: no such file or directory".

Definition writeFile (filePath : string) : M unit :=
  modify (fun s => mkState (files s ∪ {[filePath]}) (console s) (chunkFiles s)).

Definition consoleError (line : string) : M unit :=
  modify (fun s => mkState (files s) (console s ++ [line]) (chunkFiles s)).

(** [getFileSize]: [fs.statSync] throws on a missing file. *)
Definition getFileSize (w : World) (filePath : string) : M Q :=
  s <- get ;;
  if bool_decide (filePath ∈ files s) then ret (statSize w filePath)
  else throw "ENOENT: no such file or directory".

(** [if (fs.existsSync(filePath)) { fs.unlinkSync(filePath); }] *)
Definition unlinkIfExists (w : World) (filePath : string) : M unit :=
  present <- existsSync filePath ;;
  if present : bool then unlinkSync w filePath else ret tt.

(** [safeDelete] of the ffmpeg wrapper. *)
Definition safeDelete (w : World) (filePath : string) : M unit :=
  tryCatch
    (unlinkIfExists w filePath)
    (fun err => consoleError ("Failed to delete " +:+ filePath +:+ ": " +:+ err)).

(** [cleanupFiles] of the route: one [try]/[catch] per path. *)
Fixpoint cleanupFiles (w : World) (filePaths : list string) : M unit :=
  match filePaths with
  | [] => ret tt
  | filePath :: rest =>
      tryCatch
        (unlinkIfExists w filePath)
        (fun err => consoleError ("Failed to clean up " +:+ filePath +:+ ": " +:+ err)) ;;;
      cleanupFiles w rest
  end.

End Files.

(** ** Media splitter ([splitAudioIntoChunks]) *)

Module Split.
Import Merge Files.
Local Open Scope eff_scope.

(** [path.join(outputDir, `${baseName}_chunk_${chunkIndex}.mp3`)] *)
Definition chunkPathOf (outputDir baseName : string) (chunkIndex : nat) : string :=
  outputDir +:+ "/" +:+ baseName +:+ "_chunk_" +:+ pretty chunkIndex +:+ ".mp3".

(** One ffmpeg run cutting a sub-clip.  On error the output, which ffmpeg
    may have started to write, is removed with [safeDelete] and the promise
    rejects. *)
Definition ffmpegClip (w : World) (chunkIndex : nat) (chunkPath : string) : M unit :=
  writeFile chunkPath ;;;
  match clipError w chunkIndex with
  | Some err => safeDelete w chunkPath ;;; throw err
  | None => ret tt
  end.

Section Loop.
Variables (w : World) (outputDir baseName : string).
Variables (duration chunkDurationSeconds overlapSeconds : Q).

(** The [while (startTime < duration)] loop; one unit of fuel per
    iteration. *)
Fixpoint splitLoop (fuel : nat) (startTime : Q) (chunkIndex : nat)
    (chunks : list Chunk) : M (list Chunk) :=
  match fuel with
  | O => diverge
  | S fuel' =>
      if Qlt_bool startTime duration then
        let chunkPath := chunkPathOf outputDir baseName chunkIndex in
        let endTime := Qmin (startTime + chunkDurationSeconds) duration in
        ffmpegClip w chunkIndex chunkPath ;;;
        let chunks := chunks ++ [mkChunk chunkPath startTime endTime false] in
        let chunkIndex := S chunkIndex in
        let startTime := endTime - overlapSeconds in
        if Qlt_bool (duration - startTime) (overlapSeconds * 2) then ret chunks
        else splitLoop fuel' startTime chunkIndex chunks
      else ret chunks
  end.

End Loop.

(** [splitAudioIntoChunks(audioPath, outputDir, chunkDurationSeconds,
    overlapSeconds)]; [baseName] is [path.basename(audioPath,
    path.extname(audioPath))]. *)
Definition splitAudioIntoChunks (fuel : nat) (w : World)
    (audioPath outputDir baseName : string)
    (chunkDurationSeconds overlapSeconds : Q) : M (list Chunk) :=
  duration <- liftResult (ffprobeDuration w) ;;
  if Qle_bool duration chunkDurationSeconds then
    ret [mkChunk audioPath 0 duration true]
  else
    splitLoop w outputDir baseName duration chunkDurationSeconds overlapSeconds
      fuel 0 0 [].

(** Properties of a list of windows, for the statements below.  Every
    window ends at [min(start + C, D)]; each window starts [O] seconds
    before the end of its predecessor. *)
Definition windowOk (D C : Q) (c : Chunk) : Prop :=
  endTime c = Qmin (startTime c + C) D.

Definition chained (O : Q) (chunks : list Chunk) : Prop :=
  forall i a b, chunks !! i = Some a -> chunks !! S i = Some b ->
    startTime b = endTime a - O.

End Split.

(** ** Chunk dispatcher and the merge loop of the route *)

Module Dispatch.
Import Merge.

(** [{ index: i, chunk, result }] *)
Record Tagged := mkTagged {
  index : nat;
  chunk : Chunk;
  result : TranscriptionResult
}.

(** [transcriptionResults.sort((a, b) => a.index - b.index)] *)
Definition indexLe (a b : Tagged) : Prop := (index a <= index b)%nat.

#[export] Instance indexLe_dec : RelDecision indexLe.
Proof. intros a b. unfold indexLe. apply _. Defined.

Definition sortByIndex (transcriptionResults : list Tagged) : list Tagged :=
  merge_sort indexLe transcriptionResults.

(** [(result.segments || []).map(seg => ({...seg, start: seg.start +
    chunk.startTime, end: seg.end + chunk.startTime}))] *)
Definition adjustSegments (c : Chunk) (r : TranscriptionResult) : list Segment :=
  map (fun seg => mkSegment (start seg + startTime c) (end_ seg + startTime c)
                            (text seg) (speaker seg))
      (segments r).

(** One iteration of [for (const { index, chunk, result } of
    transcriptionResults)], on the pair [(allSegments, totalDuration)]. *)
Definition mergeStep (overlap : Q) (acc : list Segment * Q) (t : Tagged)
    : list Segment * Q :=
  let '(allSegments, totalDuration) := acc in
  let adjustedSegments := adjustSegments (chunk t) (result t) in
  (mergeChunkSegments allSegments adjustedSegments (startTime (chunk t)) overlap,
   Qmax totalDuration (duration (result t) + startTime (chunk t))).

Definition mergeLoop (overlap : Q) (transcriptionResults : list Tagged)
    : list Segment * Q :=
  fold_left (mergeStep overlap) transcriptionResults ([], 0).

(** Sort, then merge: what the route does with the collected results. *)
Definition sortAndMerge (overlap : Q) (collected : list Tagged) : list Segment * Q :=
  mergeLoop overlap (sortByIndex collected).

(** [Promise.all]: rejects with the reason of the first promise to reject,
    in settling order; otherwise resolves with the values in the order of
    the promises passed in, whatever order they settled in. *)
Definition firstRejection {A} (settleOrder : list nat) (outcomes : list (Result A))
    : option string :=
  let reason i := match outcomes !! i with Some (Throw e) => Some e | _ => None end in
  head (omap reason (settleOrder ++ seq 0 (length outcomes))).

Fixpoint allValues {A} (outcomes : list (Result A)) : option (list A) :=
  match outcomes with
  | [] => Some []
  | Ok a :: rest => cons a <$> allValues rest
  | _ :: _ => None
  end.

Definition promiseAll {A} (settleOrder : list nat) (outcomes : list (Result A))
    : M (list A) :=
  match firstRejection settleOrder outcomes with
  | Some e => throw e
  | None =>
      match allValues outcomes with
      | Some values => ret values
      | None => diverge
      end
  end.

(** [a] may precede [b]: its start is at most [slack] seconds later. *)
Definition precedes (slack : Q) (a b : Segment) : Prop := start a <= start b + slack.




End Dispatch.

(** ** Speaker normaliser ([processTranscription]) *)

Module Out.
(** A segment of the processed transcript. *)
Record t := mk {
  id : nat;
  start : Q;
  end_ : Q;
  text : string;
  speaker : string
}.
End Out.

Module Normalize.

(** JavaScript truthiness of a string, and [a || b]. *)
Definition truthy (s : string) : bool := negb (String.eqb s "").
Definition orElse (a b : string) : string := if truthy a then a else b.

(** [/^[A-Z]$/.test(speaker)] *)
Definition isGenericLabel (speaker : string) : bool :=
  match speaker with
  | String c EmptyString =>
      (65 <=? Ascii.nat_of_ascii c)%nat && (Ascii.nat_of_ascii c <=? 90)%nat
  | _ => false
  end.

Definition defaultUnknownLabels : list string :=
  ["Interviewer"; "Speaker A"; "Speaker B"; "Speaker C"].

(** The closure state of the [map] callback: [speakerMap] and
    [unknownIndex]. *)
Definition MapState : Type := gmap string string * nat.

(** [obj[key]] on a string-valued object, [undefined] read as [""]. *)
Definition getOr (m : gmap string string) (key : string) : string :=
  default "" (m !! key).
Definition nthOr (l : list string) (i : nat) : string := default "" (l !! i).

(** The callback of [segments.map((segment, index) => ...)]. *)
Definition processSegment (unknownLabels : list string) (st : MapState)
    (index : nat) (segment : Segment) : MapState * Out.t :=
  let '(speakerMap, unknownIndex) := st in
  let speaker0 := orElse (speaker segment) "Unknown" in
  let '(st', speaker1) :=
    if isGenericLabel speaker0 then
      let st' :=
        if negb (truthy (getOr speakerMap speaker0)) then
          (<[speaker0 := orElse (nthOr unknownLabels unknownIndex)
                                ("Speaker " +:+ speaker0)]> speakerMap,
           S unknownIndex)
        else st in
      (st', getOr (fst st') speaker0)
    else (st, speaker0) in
  (st', Out.mk index (start segment) (end_ segment) (text segment) speaker1).

Fixpoint mapSegments (unknownLabels : list string) (st : MapState) (index : nat)
    (segs : list Segment) : list Out.t :=
  match segs with
  | [] => []
  | segment :: rest =>
      let '(st', out) := processSegment unknownLabels st index segment in
      out :: mapSegments unknownLabels st' (S index) rest
  end.

(** [processTranscription(transcription, config)] with
    [transcription = { segments }]. *)
Definition processTranscription (segs : list Segment) (config : Config) : list Out.t :=
  let unknownLabels := default defaultUnknownLabels (unknown_speaker_labels config) in
  mapSegments unknownLabels (∅, 0%nat) 0 segs.

(** Vocabulary of the statements about the normaliser.  [codes] are the
    generic speaker codes of a transcript in segment order; [firstSeen]
    lists the distinct codes in order of first appearance; [rankOf] is the
    position of a code in such a list; [labelAt] is what the callback
    stores for the code with a given rank. *)
Definition codes (segs : list Segment) : list string :=
  List.filter isGenericLabel (map speaker segs).

Definition addCode (seen : list string) (code : string) : list string :=
  if bool_decide (code ∈ seen) then seen else seen ++ [code].

Definition firstSeenFrom (seen : list string) (cs : list string) : list string :=
  fold_left addCode cs seen.

Definition firstSeen (cs : list string) : list string := firstSeenFrom [] cs.

Fixpoint rankOf (code : string) (seen : list string) : option nat :=
  match seen with
  | [] => None
  | c :: rest => if bool_decide (c = code) then Some 0%nat else S <$> rankOf code rest
  end.

Definition labelAt (unknownLabels : list string) (rank : nat) (code : string) : string :=
  orElse (nthOr unknownLabels rank) ("Speaker " +:+ code).

Definition assignedIn (unknownLabels seen : list string) (code : string) : string :=
  match rankOf code seen with
  | Some k => labelAt unknownLabels k code
  | None => ""
  end.

(** What the closure state holds after the codes in [seen] have been met. *)
Definition tracks (labels : list string) (st : MapState) (seen : list string) : Prop :=
  snd st = length seen
  /\ forall code, getOr (fst st) code = assignedIn labels seen code.

(** The speaker the normaliser writes for a raw speaker, given the
    distinct codes of the whole run. *)
Definition resolved (labels seen : list string) (raw : string) : string :=
  if isGenericLabel raw then assignedIn labels seen raw else orElse raw "Unknown".


End Normalize.

(** ** The route [POST /transcribe], from its [try] block on

    The request has passed validation: [sessionId] is a UUID, so the audio
    path is [UPLOADS_DIR/<sessionId>.mp3] and its base name is the session
    id.  [console.log] lines are not modelled. *)

Module Route.
Import Merge Files Split Dispatch Normalize.
Local Open Scope eff_scope.

Definition MAX_FILE_SIZE_MB : Q := 24.
Definition MAX_DURATION_SECONDS : Q := 1200.
Definition MAX_CHUNK_DURATION_SECONDS : Q := 900.
Definition CHUNK_OVERLAP_SECONDS : Q := 30.
Definition DEFAULT_CHUNK_MINUTES : Q := 4.

(** [req.body]; an absent [chunkMinutes] is falsy like [0]. *)
Record Request := mkRequest {
  sessionId : string;
  chunkMinutes : Q
}.

Inductive Response : Type :=
  | Json200 (transcript : list Out.t) (rawSegments : list Segment)
            (rawDuration : Q) (chunked : bool) (chunksUsed : Z)
  | Json500 (error : string).

(** [a || b] on numbers. *)
Definition numOr (a b : Q) : Q := if Qeq_bool a 0 then b else a.

(** [message.includes(needle)] *)
Fixpoint includes (needle message : string) : bool :=
  String.prefix needle message ||
  match message with
  | EmptyString => false
  | String _ rest => includes needle rest
  end.

Definition extractAudio (w : World) (outputPath : string) : M unit :=
  writeFile outputPath ;;;
  match extractError w with
  | Some err => safeDelete w outputPath ;;; throw err
  | None => ret tt
  end.

Definition getAudioDuration (w : World) : M Q := liftResult (ffprobeDuration w).

Definition transcribeAudioFile (w : World) (audioPath : string) : M TranscriptionResult :=
  liftResult (backend w audioPath).

Definition mapResult {A B} (f : A -> B) (r : Result A) : Result B :=
  match r with
  | Ok a => Ok (f a)
  | Throw e => Throw e
  | Diverge => Diverge
  end.

(** [for (const chunk of chunks) if (!chunk.isOriginal)
    chunkFiles.push(chunk.path)] *)
Definition trackChunkFiles (chunks : list Chunk) : M unit :=
  modify (fun s =>
    mkState (files s) (console s)
            (chunkFiles s ++ map path (List.filter (fun c => negb (isOriginal c)) chunks))).

(** The chunk-info loop: only its [getFileSize] calls can be observed. *)
Fixpoint logChunkInfo (w : World) (chunks : list Chunk) : M unit :=
  match chunks with
  | [] => ret tt
  | c :: rest => getFileSize w (path c) ;;; logChunkInfo w rest
  end.

(** [chunks.map((chunk, i) => transcribeAudioFile(chunk.path, ...)
      .then(result => ({ index: i, chunk, result })))] *)
Definition transcriptionPromises (w : World) (chunks : list Chunk) : list (Result Tagged) :=
  imap (fun i c => mapResult (mkTagged i c) (backend w (path c))) chunks.

Definition audioPathOf (uploadsDir : string) (req : Request) : string :=
  uploadsDir +:+ "/" +:+ sessionId req +:+ ".mp3".

Definition chunkDurationOf (req : Request) : Q :=
  let userChunkMinutes := numOr (chunkMinutes req) DEFAULT_CHUNK_MINUTES in
  let userChunkSeconds := userChunkMinutes * 60 in
  Qmin userChunkSeconds MAX_CHUNK_DURATION_SECONDS.

Definition needsChunkingOf (audioDuration audioFileSize chunkDurationSeconds : Q) : bool :=
  let audioFileSizeMB := audioFileSize / (1024 * 1024) in
  let exceedsHardLimits :=
    Qlt_bool MAX_DURATION_SECONDS audioDuration
    || Qlt_bool MAX_FILE_SIZE_MB audioFileSizeMB in
  let benefitsFromParallel := Qlt_bool (chunkDurationSeconds * (3 # 2)) audioDuration in
  exceedsHardLimits || benefitsFromParallel.

Definition chunksUsedOf (needsChunking : bool) (audioDuration chunkDurationSeconds : Q) : Z :=
  if needsChunking then Qceiling (audioDuration / chunkDurationSeconds) else 1%Z.

Definition tryBlock (fuel : nat) (w : World) (uploadsDir : string) (req : Request)
    : M Response :=
  let audioPath := audioPathOf uploadsDir req in
  extractAudio w audioPath ;;;
  audioDuration <- getAudioDuration w ;;
  audioFileSize <- getFileSize w audioPath ;;
  let chunkDurationSeconds := chunkDurationOf req in
  let needsChunking := needsChunkingOf audioDuration audioFileSize chunkDurationSeconds in
  config <- liftResult (transcriptionConfig w) ;;
  merged <-
    (if needsChunking then
       chunks <- splitAudioIntoChunks fuel w audioPath uploadsDir (sessionId req)
                   chunkDurationSeconds CHUNK_OVERLAP_SECONDS ;;
       trackChunkFiles chunks ;;;
       logChunkInfo w chunks ;;;
       transcriptionResults <-
         promiseAll (settleOrder w) (transcriptionPromises w chunks) ;;
       ret (sortAndMerge CHUNK_OVERLAP_SECONDS transcriptionResults)
     else
       transcription <- transcribeAudioFile w audioPath ;;
       ret (segments transcription, numOr (duration transcription) audioDuration)) ;;
  let '(allSegments, totalDuration) := merged in
  let processedTranscript := processTranscription allSegments config in
  s <- get ;;
  cleanupFiles w (audioPath :: chunkFiles s) ;;;
  ret (Json200 processedTranscript allSegments totalDuration needsChunking
               (chunksUsedOf needsChunking audioDuration chunkDurationSeconds)).

Definition catchBlock (w : World) (uploadsDir : string) (req : Request)
    (message : string) : M Response :=
  let audioPath := audioPathOf uploadsDir req in
  s <- get ;;
  cleanupFiles w (audioPath :: chunkFiles s) ;;;
  let errorMessage :=
    if includes "timeout" message || includes "Timeout" message then
      "Transcription timed out. The audio file may be too long. Try a shorter video."
    else if includes "too large" message || includes "25 MB" message then
      "Audio file too large for transcription API. Try a shorter video."
    else message in
  ret (Json500 errorMessage).

(** The handler: [const chunkFiles = []; try { ... } catch (error) { ... }],
    run on the files already present in the upload directory. *)
Definition transcribe (fuel : nat) (w : World) (uploadsDir : string) (req : Request)
    (present : gset string) : Result Response * State :=
  tryCatch (tryBlock fuel w uploadsDir req) (catchBlock w uploadsDir req)
           (mkState present [] []).

End Route.

(** ** Request validation ([lib/security.js])

    Paths are POSIX paths.  [UPLOADS_DIR] is the result of [path.resolve]:
    absolute, normalised, without a trailing slash; it is a parameter
    here.  Strings are sequences of one-byte characters, so [length] is the
    JavaScript [length] for ASCII names. *)

Module Security.
Import Stdlib.Strings.Ascii Normalize Route.

(** [isValidFilename(filename)] *)
Definition isValidFilename (filename : string) : bool :=
  if negb (truthy filename) then false
  else if includes ".." filename || includes "/" filename || includes "\" filename
  then false
  else if includes (String Ascii.zero EmptyString) filename then false
  else if (255 <? String.length filename)%nat then false
  else true.

(** [path.join(dir, name)] for a [name] that [isValidFilename] accepts: one
    segment, which normalisation drops when it is ["."]. *)
Definition pathJoin (dir name : string) : string :=
  if String.eqb name "." then dir else dir +:+ "/" +:+ name.

(** [safeUploadPath(filename)]; [None] is [null]. *)
Definition safeUploadPath (uploadsDir filename : string) : option string :=
  if negb (isValidFilename filename) then None
  else
    let fullPath := pathJoin uploadsDir filename in
    if negb (String.prefix uploadsDir fullPath) then None
    else Some fullPath.

(** [safeFramesPath(sessionId)] *)
Definition safeFramesPath (uploadsDir sessionId : string) : option string :=
  if negb (isValidFilename sessionId) then None
  else
    let framesDir := pathJoin uploadsDir (sessionId +:+ "_frames") in
    if negb (String.prefix uploadsDir framesDir) then None
    else Some framesDir.

(** The character classes of the UUID pattern, read with the [i] flag. *)
Inductive CharClass : Type := Hex | Dash | Four | Variant.

Definition inRange (lo hi : nat) (c : Ascii.ascii) : bool :=
  (lo <=? Ascii.nat_of_ascii c)%nat && (Ascii.nat_of_ascii c <=? hi)%nat.

(** [[0-9a-f]] with [i]: digits, [a-f], [A-F]. *)
Definition isHexDigit (c : Ascii.ascii) : bool :=
  inRange 48 57 c || inRange 97 102 c || inRange 65 70 c.

Definition matchesClass (cls : CharClass) (c : Ascii.ascii) : bool :=
  match cls with
  | Hex => isHexDigit c
  | Dash => Ascii.eqb c "-"%char
  | Four => Ascii.eqb c "4"%char
  | Variant =>
      Ascii.eqb c "8"%char || Ascii.eqb c "9"%char || Ascii.eqb c "a"%char
      || Ascii.eqb c "b"%char || Ascii.eqb c "A"%char || Ascii.eqb c "B"%char
  end.

(** [^[0-9a-f]{8}-[0-9a-f]{4}-4[0-9a-f]{3}-[89ab][0-9a-f]{3}-[0-9a-f]{12}$] *)
Definition uuidPattern : list CharClass :=
  replicate 8 Hex ++ [Dash] ++ replicate 4 Hex ++ [Dash; Four] ++ replicate 3 Hex
  ++ [Dash; Variant] ++ replicate 3 Hex ++ [Dash] ++ replicate 12 Hex.

Fixpoint matchesPattern (pattern : list CharClass) (s : string) : bool :=
  match pattern, s with
  | [], EmptyString => true
  | cls :: rest, String c s' => matchesClass cls c && matchesPattern rest s'
  | _, _ => false
  end.

(** [isValidSessionId(sessionId)] *)
Definition isValidSessionId (sessionId : string) : bool :=
  if negb (truthy sessionId) then false
  else matchesPattern uuidPattern sessionId.

(** What the handler of [POST /transcribe] does before its [try] block:
    the answer with status 400, if any. *)
Definition validateTranscribe (uploadsDir sessionId filename : string) : option string :=
  if negb (truthy sessionId) || negb (truthy filename) then
    Some "Missing sessionId or filename"
  else if negb (isValidFilename filename) then Some "Invalid filename"
  else if negb (isValidSessionId sessionId) then Some "Invalid session ID"
  else
    match safeUploadPath uploadsDir filename,
          safeUploadPath uploadsDir (sessionId +:+ ".mp3") with
    | Some _, Some _ => None
    | _, _ => Some "Invalid file path"
    end.

End Security.

(** ** Frame extraction ([extractFrames] of the ffmpeg wrapper) *)

Module Frames.
Import Files.
Local Open Scope eff_scope.

(** [{ index, timestamp, path, filename }] *)
Record Frame := mkFrame {
  index : nat;
  timestamp : Q;
  path : string;
  filename : string
}.

(** The collaborators of [extractFrames]: the probed duration of the
    video, the successive values of [Math.random()], and the ffmpeg error,
    if any, for the frame at a given position. *)
Record FrameWorld := mkFrameWorld {
  videoDuration : Result Q;
  random : nat -> Q;
  frameError : nat -> option string
}.

(** Numeric order, as the comparator [(a, b) => a - b] sorts. *)
Definition numLe (a b : Q) : Prop := Qle_bool a b = true.

#[export] Instance numLe_dec : RelDecision numLe.
Proof. intros a b. unfold numLe. apply _. Defined.

(** [startTime + Math.random() * (endTime - startTime)], [numFrames]
    times. *)
Definition drawTimestamps (fw : FrameWorld) (startTime endTime : Q) (numFrames : nat)
    : list Q :=
  map (fun i => startTime + random fw i * (endTime - startTime)) (seq 0 numFrames).

Definition frameName (i : nat) : string := "frame_" +:+ pretty (i + 1)%nat +:+ ".jpg".

(** One ffmpeg run grabbing a frame; on error the output is removed with
    [safeDelete] and the promise rejects. *)
Definition grabFrame (fw : FrameWorld) (w : World) (i : nat) (outputPath : string)
    : M unit :=
  writeFile outputPath ;;;
  match frameError fw i with
  | Some err => safeDelete w outputPath ;;; throw err
  | None => ret tt
  end.

(** The loop [for (let i = 0; i < timestamps.length; i++)], from position
    [i] on. *)
Fixpoint grabAll (fw : FrameWorld) (w : World) (outputDir : string) (i : nat)
    (timestamps : list Q) (frames : list Frame) : M (list Frame) :=
  match timestamps with
  | [] => ret frames
  | timestamp :: rest =>
      let outputPath := outputDir +:+ "/" +:+ frameName i in
      grabFrame fw w i outputPath ;;;
      grabAll fw w outputDir (S i) rest
              (frames ++ [mkFrame (i + 1) timestamp outputPath (frameName i)])
  end.

(** [extractFrames(videoPath, outputDir, numFrames)] *)
Definition extractFrames (fw : FrameWorld) (w : World) (outputDir : string)
    (numFrames : nat) : M (list Frame) :=
  duration <- liftResult (videoDuration fw) ;;
  let startTime := duration * (5 # 100) in
  let endTime := duration * (95 # 100) in
  let timestamps := merge_sort numLe (drawTimestamps fw startTime endTime numFrames) in
  grabAll fw w outputDir 0 timestamps [].

End Frames.

(** ** Ranked frame numbers ([extractRankedFrames] of the frames route)

    The two regular-expression matches are inputs here: [rankingMatch] is
    the outcome of [text.match(/RANKING:\s*([\d,\s]+)/i)] followed by
    [rankingMatch[1].match(/\d+/g)] ([None] when the first fails,
    [Some None] when the second returns [null]), and [numbers] is the
    outcome of [text.match(/\d+/g)]; the digit strings are given by the
    numbers [parseInt] reads from them. *)

Module Ranking.

(** [.filter(n => n >= 1 && n <= totalFrames && !seen.has(n) &&
    seen.add(n))] over a shared [Set]. *)
Fixpoint filterSeen (totalFrames : nat) (seen : gset nat) (numbers : list nat)
    : list nat :=
  match numbers with
  | [] => []
  | n :: rest =>
      if (1 <=? n)%nat && (n <=? totalFrames)%nat && negb (bool_decide (n ∈ seen))
      then n :: filterSeen totalFrames (seen ∪ {[n]}) rest
      else filterSeen totalFrames seen rest
  end.

Definition validNumbers (totalFrames : nat) (numbers : list nat) : list nat :=
  filterSeen totalFrames ∅ numbers.

(** [extractRankedFrames(text, count, totalFrames)] *)
Definition extractRankedFrames (rankingMatch : option (option (list nat)))
    (numbers : option (list nat)) (count totalFrames : nat) : list nat :=
  let fallback :=
    match numbers with
    | None => map (fun i => (i + 1)%nat) (seq 0 count)
    | Some numbers => take count (validNumbers totalFrames numbers)
    end in
  match rankingMatch with
  | Some (Some numbers) =>
      let validNumbers := validNumbers totalFrames numbers in
      if (count <=? length validNumbers)%nat then take count validNumbers
      else fallback
  | _ => fallback
  end.

End Ranking.

(** ** Pre- and postconditions of effectful code *)

Module Hoare.

(** [triple P m Q E]: run from a state satisfying [P], the computation [m]
    either returns [a] in a state satisfying [Q a], or throws in a state
    satisfying [E], or does not finish. *)
Definition triple {A} (P : State -> Prop) (m : M A)
    (Q : A -> State -> Prop) (E : State -> Prop) : Prop :=
  forall s, P s ->
    match m s with
    | (Ok a, s') => Q a s'
    | (Throw _, s') => E s'
    | (Diverge, _) => True
    end.

(** The files on disk are accounted for: each one was [present] before the
    request, or is the extracted audio, or is listed in [chunkFiles]. *)
Definition accounted (present : gset string) (audioPath : string) (s : State) : Prop :=
  forall x, x ∈ files s -> x ∈ present \/ x = audioPath \/ x ∈ chunkFiles s.

(** Nothing is left: every file on disk was [present] before the request
    and is neither the extracted audio nor a tracked chunk file. *)
Definition cleaned (present : gset string) (audioPath : string) (s : State) : Prop :=
  forall x, x ∈ files s -> x ∈ present /\ x <> audioPath /\ x ∉ chunkFiles s.

(** The console line of a failed [unlink] in [cleanupFiles], if the path is
    on disk and its [unlink] fails. *)
Definition cleanupLine (w : World) (s : State) (filePath : string) : option string :=
  if bool_decide (filePath ∈ files s) then
    (fun e => "Failed to clean up " +:+ filePath +:+ ": " +:+ e) <$> unlinkError w filePath
  else None.

End Hoare.

(** ** Concrete runs used in the statements below *)

Module Examples.
Import Route.

(** A backend that answers every file with one short segment. *)
Definition oneSegment : TranscriptionResult :=
  mkResult [mkSegment 0 1 "hello" "A"] 10 "en".

(** A world in which the source lasts [D] seconds and the collaborators
    fail where the arguments say. *)
Definition world (D : Q) (clipErr : nat -> option string)
    (be : string -> Result TranscriptionResult) : World :=
  mkWorld None (Ok D) (fun _ => 1000) clipErr (Ok (mkConfig None)) be []
          (fun _ => None).

Definition quiet (D : Q) : World :=
  world D (fun _ => None) (fun _ => Ok oneSegment).

(** Two chunks of a 450 s source (240 s chunks, 30 s overlap). *)
Definition chunk0 : Chunk := mkChunk "/uploads/a_chunk_0.mp3" 0 240 false.
Definition chunk1 : Chunk := mkChunk "/uploads/a_chunk_1.mp3" 210 450 false.


(** Results of the two chunks with a short segment on each side of the
    second chunk's start (210 s): the earlier chunk reports
    [210.5, 210.9], the later one [0, 0.4] relative to its own start. *)
Definition earlier : Dispatch.Tagged :=
  Dispatch.mkTagged 0 chunk0
    (mkResult [mkSegment (421 # 2) (2109 # 10) "first" "A"] 240 "en").
Definition later : Dispatch.Tagged :=
  Dispatch.mkTagged 1 chunk1
    (mkResult [mkSegment 0 (4 # 10) "second" "B"] 240 "en").

(** A segment said by the given raw speaker. *)
Definition saidBy (raw : string) : Segment := mkSegment 0 1 "words" raw.

Definition request : Request :=
  mkRequest "3f2a8c1e-5b7d-4e9a-8c6f-0d1e2f3a4b5c" 4.

Definition audioFile : string :=
  "/uploads/3f2a8c1e-5b7d-4e9a-8c6f-0d1e2f3a4b5c.mp3".
Definition chunkFile (k : nat) : string :=
  Split.chunkPathOf "/uploads" "3f2a8c1e-5b7d-4e9a-8c6f-0d1e2f3a4b5c" k.

(** ffmpeg fails while cutting the chunk with index [n]. *)
Definition clipFailsAt (n k : nat) : option string :=
  if (k =? n)%nat then Some "ffmpeg exited with code 1" else None.

(** The backend rejects the chunk with index [n]. *)
Definition backendFailsAt (n : nat) (p : string) : Result TranscriptionResult :=
  if String.eqb p (chunkFile n) then Throw "429 You exceeded your current quota"
  else Ok oneSegment.

(** As [world], with [unlink] failing on the chunk with index [n]. *)
Definition stubborn (D : Q) (be : string -> Result TranscriptionResult) (n : nat) : World :=
  mkWorld None (Ok D) (fun _ => 1000) (fun _ => None) (Ok (mkConfig None)) be []
          (fun p => if String.eqb p (chunkFile n) then Some "EPERM: operation not permitted"
                    else None).

End Examples.

(** ** Theorems *)

Section MergeFacts.
Import Merge.

Lemma Qlt_bool_iff (a b : Q) : Qlt_bool a b = true <-> a < b.
Proof.
  unfold Qlt_bool. rewrite negb_true_iff.
  split.
  - intros H. apply Qnot_le_lt. intros Hle.
    apply Qle_bool_iff in Hle. congruence.
  - intros H. destruct (Qle_bool b a) eqn:E; [|reflexivity].
    apply Qle_bool_iff in E. exfalso. apply (Qlt_not_le _ _ H E).
Qed.

Lemma dropWhere_filter (bad : Segment -> bool) (l : list Segment) :
  dropWhere bad l = List.filter (fun s => negb (bad s)) l.
Proof.
  induction l as [|s l IH]; simpl; [reflexivity|].
  destruct (bad s); simpl; congruence.
Qed.

Lemma filter_ext_bool {A} (f g : A -> bool) (l : list A) :
  (forall x, f x = g x) -> List.filter f l = List.filter g l.
Proof.
  intros E. induction l as [|x l IH]; simpl; [reflexivity|].
  rewrite E, IH. reflexivity.
Qed.

(** C1. [mergeChunkSegments] returns [newSegments] itself when the
    accumulator is empty; otherwise it returns the accumulated segments
    whose [end] is at most [chunkStartTime + 1] followed by the new segments
    whose [start] is at least [chunkStartTime - 1].  Equivalently it is the
    merger of the specification, which drops the accumulated segments with
    [end > chunkStartTime + 1] and the new ones with
    [start < chunkStartTime - 1]; a segment is in the result of the
    non-empty case exactly when it survives on its side. *)
Theorem mergeChunkSegments_spec :
  forall (accumulated newSegments : list Segment) (chunkStartTime overlapSeconds : Q),
    mergeChunkSegments [] newSegments chunkStartTime overlapSeconds = newSegments
    /\ mergeChunkSegments accumulated newSegments chunkStartTime overlapSeconds
       = merge_spec accumulated newSegments chunkStartTime overlapSeconds
    /\ (accumulated <> [] ->
        mergeChunkSegments accumulated newSegments chunkStartTime overlapSeconds
        = List.filter (fun s => Qle_bool (end_ s) (chunkStartTime + 1)) accumulated
          ++ List.filter (fun s => Qle_bool (chunkStartTime - 1) (start s)) newSegments)
    /\ (accumulated <> [] ->
        forall s, In s (mergeChunkSegments accumulated newSegments chunkStartTime overlapSeconds)
          <-> (In s accumulated /\ ~ chunkStartTime + 1 < end_ s)
              \/ (In s newSegments /\ ~ start s < chunkStartTime - 1)).
Proof.
  intros acc new t o.
  assert (Hne : acc <> [] ->
      mergeChunkSegments acc new t o
      = List.filter (keepExisting t) acc ++ List.filter (keepNew t) new).
  { intros Hacc. unfold mergeChunkSegments.
    destruct acc as [|a acc']; [congruence|reflexivity]. }
  split; [reflexivity|]. split; [|split].
  - destruct acc as [|a acc']; [reflexivity|].
    rewrite Hne by discriminate.
    unfold merge_spec. rewrite !dropWhere_filter.
    f_equal; apply filter_ext_bool; intros s;
      unfold keepExisting, keepNew, Qlt_bool; rewrite negb_involutive; reflexivity.
  - exact Hne.
  - intros Hacc s. rewrite (Hne Hacc), in_app_iff, !filter_In.
    unfold keepExisting, keepNew. rewrite !Qle_bool_iff.
    split; (intros [[Hin Hc]|[Hin Hc]]; [left|right]; split; auto).
    + apply Qle_not_lt; assumption.
    + apply Qle_not_lt; assumption.
    + apply Qnot_lt_le; assumption.
    + apply Qnot_lt_le; assumption.
Qed.

End MergeFacts.

(** *** The monad *)

Section EffFacts.
Local Open Scope eff_scope.

Lemma bind_Ok {A B} (m : M A) (k : A -> M B) s b s' :
  bind m k s = (Ok b, s') ->
  exists a s1, m s = (Ok a, s1) /\ k a s1 = (Ok b, s').
Proof.
  unfold bind. destruct (m s) as [[a| |] s1]; intros H; try discriminate.
  exists a, s1. split; [reflexivity|exact H].
Qed.

Lemma bind_step {A B} (m : M A) (k : A -> M B) s a s1 :
  m s = (Ok a, s1) -> bind m k s = k a s1.
Proof. unfold bind. intros ->. reflexivity. Qed.

End EffFacts.

(** *** The splitter *)

Section SplitFacts.
Import Merge Files Split.
Local Open Scope eff_scope.

Variables (w : World) (outputDir baseName : string).
Variables (D C O : Q).

Local Abbreviation loop := (splitLoop w outputDir baseName D C O).

Local Abbreviation windowOk := (Split.windowOk D C).
Local Abbreviation chained := (Split.chained O).

Lemma chained_snoc chunks c :
  chained chunks ->
  (forall a, last chunks = Some a -> startTime c = endTime a - O) ->
  chained (chunks ++ [c]).
Proof.
  intros Hch Hlast i a b Ha Hb.
  assert (Hi : (S i < length (chunks ++ [c]))%nat) by (eapply lookup_lt_Some; eauto).
  rewrite length_app in Hi. simpl in Hi.
  rewrite lookup_app_l in Ha by lia.
  destruct (decide (S i < length chunks)%nat) as [Hlt|Hge].
  - rewrite lookup_app_l in Hb by lia. eapply Hch; eauto.
  - assert (S i = length chunks) as Hlen by lia.
    rewrite lookup_app_r in Hb by lia.
    replace (S i - length chunks)%nat with 0%nat in Hb by lia.
    simpl in Hb. injection Hb as <-.
    apply Hlast. rewrite last_lookup.
    replace (pred (length chunks)) with i by lia. exact Ha.
Qed.

Lemma ffmpegClip_Ok k p s u s' :
  ffmpegClip w k p s = (Ok u, s') -> clipError w k = None.
Proof.
  unfold ffmpegClip. intros H. apply bind_Ok in H as (? & s1 & _ & H).
  destruct (clipError w k) as [e|]; [|reflexivity].
  apply bind_Ok in H as (? & ? & _ & H). discriminate.
Qed.

Lemma ffmpegClip_total k p s :
  clipError w k = None -> exists s', ffmpegClip w k p s = (Ok tt, s').
Proof.
  intros E. unfold ffmpegClip, bind, writeFile, modify. rewrite E.
  eexists. reflexivity.
Qed.

(** Partial correctness of the loop: whatever it returns consists of
    well-formed, chained windows. *)
Lemma splitLoop_inv fuel :
  forall startT idx chunks s res s',
    loop fuel startT idx chunks s = (Ok res, s') ->
    Forall windowOk chunks -> chained chunks ->
    (forall a, last chunks = Some a -> startT = endTime a - O) ->
    Forall windowOk res /\ chained res.
Proof.
  induction fuel as [|fuel IH]; intros startT idx chunks s res s' Hrun Hw Hc Hl.
  - discriminate.
  - simpl in Hrun. destruct (Qlt_bool startT D).
    + apply bind_Ok in Hrun as ([] & s1 & _ & Hrun).
      set (c := mkChunk (chunkPathOf outputDir baseName idx) startT
                        (Qmin (startT + C) D) false) in *.
      assert (Hw' : Forall windowOk (chunks ++ [c])).
      { apply Forall_app. split; [exact Hw|]. constructor; [|constructor].
        reflexivity. }
      assert (Hc' : chained (chunks ++ [c])).
      { apply chained_snoc; [exact Hc|]. intros a Ha. simpl. apply Hl, Ha. }
      destruct (Qlt_bool (D - (Qmin (startT + C) D - O)) (O * 2)).
      * injection Hrun as <- _. split; assumption.
      * eapply IH; [exact Hrun|exact Hw'|exact Hc'|].
        intros a Ha. rewrite last_snoc in Ha. injection Ha as <-. reflexivity.
    + injection Hrun as <- _. split; assumption.
Qed.

Lemma inject_nat_succ (n : nat) :
  inject_Z (Z.of_nat (S n)) == inject_Z (Z.of_nat n) + 1.
Proof. rewrite Nat2Z.inj_succ. unfold Z.succ. rewrite inject_Z_plus. reflexivity. Qed.

(** Termination of the loop when the overlap is shorter than a chunk and
    ffmpeg does not fail: [n] further windows of stride [C - O] reach the
    end of the source. *)
Lemma splitLoop_total (n : nat) :
  O < C -> (forall k, clipError w k = None) ->
  forall startT idx chunks s,
    D - startT <= inject_Z (Z.of_nat n) * (C - O) ->
    exists res s', loop (S n) startT idx chunks s = (Ok res, s').
Proof.
  intros HOC Hclip. induction n as [|n IH]; intros startT idx chunks s Hn.
  - simpl. destruct (Qlt_bool startT D) eqn:E.
    + apply Qlt_bool_iff in E. change (inject_Z (Z.of_nat 0)) with 0 in Hn. lra.
    + eexists _, _. reflexivity.
  - rewrite inject_nat_succ in Hn.
    cbn [splitLoop]. destruct (Qlt_bool startT D) eqn:E; [|eexists _, _; reflexivity].
    apply Qlt_bool_iff in E.
    destruct (ffmpegClip_total idx (chunkPathOf outputDir baseName idx) s (Hclip idx))
      as [s1 Hs1].
    rewrite (bind_step _ _ _ _ _ Hs1).
    destruct (Qlt_bool (D - (Qmin (startT + C) D - O)) (O * 2)) eqn:E2;
      [eexists _, _; reflexivity|].
    apply IH.
    destruct (Q.min_spec (startT + C) D) as [[Hlt Hmin]|[Hle Hmin]];
      rewrite Hmin.
    + lra.
    + assert (~ D - (Qmin (startT + C) D - O) < O * 2) as Hnb.
      { intros Hb. apply Qlt_bool_iff in Hb. congruence. }
      rewrite Hmin in Hnb.
      assert (0 <= inject_Z (Z.of_nat n)) as Hn0.
      { change 0 with (inject_Z 0). rewrite <- Zle_Qle. lia. }
      assert (O <= 0) by lra.
      assert (0 <= inject_Z (Z.of_nat n) * (C - O)) by (apply Qmult_le_0_compat; lra).
      lra.
Qed.

Lemma enough_windows (x : Q) :
  0 < C - O -> exists n : nat, x <= inject_Z (Z.of_nat n) * (C - O).
Proof.
  intros Hpos.
  exists (Z.to_nat (Qceiling (x / (C - O)))).
  assert (Hc : x / (C - O) <= inject_Z (Z.of_nat (Z.to_nat (Qceiling (x / (C - O)))))).
  { eapply Qle_trans; [apply Qle_ceiling|].
    rewrite <- Zle_Qle. lia. }
  assert (Hx : x == (C - O) * (x / (C - O))) by (rewrite Qmult_div_r; lra).
  rewrite Hx at 1. rewrite (Qmult_comm (inject_Z _)).
  apply Qmult_le_l; assumption.
Qed.

End SplitFacts.

Section SplitClaims.
Import Merge Files Split.

Lemma splitLoop_fuel_mono w outputDir baseName D C O fuel :
  forall k startT idx chunks s res s',
    splitLoop w outputDir baseName D C O fuel startT idx chunks s = (Ok res, s') ->
    splitLoop w outputDir baseName D C O (fuel + k) startT idx chunks s = (Ok res, s').
Proof.
  induction fuel as [|fuel IH]; intros k startT idx chunks s res s' H; [discriminate|].
  simpl in *. destruct (Qlt_bool startT D); [|exact H].
  unfold bind in *.
  destruct (ffmpegClip w idx (chunkPathOf outputDir baseName idx) s) as [[[]| |] s1];
    try discriminate.
  destruct (Qlt_bool _ _); [exact H|]. apply IH, H.
Qed.

(** C9. When the source is longer than a chunk, every two consecutive
    descriptors returned by [splitAudioIntoChunks] satisfy
    [start_{i+1} = end_i - O], and every descriptor (the final one
    included) ends at [min(start_i + C, D)].  The call does return when the
    overlap is shorter than the chunk duration and ffmpeg does not fail. *)
Theorem split_windows_chained :
  forall (w : World) (audioPath outputDir baseName : string) (D C O : Q),
    ffprobeDuration w = Ok D -> C < D ->
    (forall fuel s chunks s',
        splitAudioIntoChunks fuel w audioPath outputDir baseName C O s = (Ok chunks, s') ->
        (forall i a b, chunks !! i = Some a -> chunks !! S i = Some b ->
                       startTime b = endTime a - O)
        /\ (forall i a, chunks !! i = Some a ->
                        endTime a = Qmin (startTime a + C) D))
    /\ (O < C -> (forall k, clipError w k = None) ->
        forall s, exists fuel chunks s',
          splitAudioIntoChunks fuel w audioPath outputDir baseName C O s = (Ok chunks, s')).
Proof.
  intros w audioPath outputDir baseName D C O HD HCD.
  assert (Hgt : Qle_bool D C = false).
  { destruct (Qle_bool D C) eqn:E; [|reflexivity].
    apply Qle_bool_iff in E. exfalso. apply (Qlt_not_le _ _ HCD E). }
  assert (Hunf : forall fuel s,
    splitAudioIntoChunks fuel w audioPath outputDir baseName C O s
    = splitLoop w outputDir baseName D C O fuel 0 0 [] s).
  { intros fuel s. unfold splitAudioIntoChunks, bind, liftResult.
    rewrite HD, Hgt. reflexivity. }
  split.
  - intros fuel s chunks s' Hrun. rewrite Hunf in Hrun.
    apply splitLoop_inv in Hrun as [Hw Hc].
    + split; [exact Hc|]. intros i a Ha.
      rewrite Forall_lookup in Hw. exact (Hw i a Ha).
    + constructor.
    + intros i a b Ha. discriminate.
    + intros a Ha. discriminate.
  - intros HOC Hclip s.
    destruct (enough_windows C O (D - 0)) as [n Hn]; [lra|].
    destruct (splitLoop_total w outputDir baseName D C O n HOC Hclip 0 0%nat [] s Hn)
      as (res & s' & Hres).
    exists (S n), res, s'. rewrite Hunf. exact Hres.
Qed.

Lemma split_windows_chained_witness :
  (forall fuel s chunks s',
      splitAudioIntoChunks fuel (Examples.quiet 1800) "/uploads/a.mp3" "/uploads" "a"
                           240 30 s = (Ok chunks, s') ->
      (forall i a b, chunks !! i = Some a -> chunks !! S i = Some b ->
                     startTime b = endTime a - 30)
      /\ (forall i a, chunks !! i = Some a ->
                      endTime a = Qmin (startTime a + 240) 1800))
  /\ (30 < 240 -> (forall k, clipError (Examples.quiet 1800) k = None) ->
      forall s, exists fuel chunks s',
        splitAudioIntoChunks fuel (Examples.quiet 1800) "/uploads/a.mp3" "/uploads" "a"
                             240 30 s = (Ok chunks, s')).
Proof.
  apply (split_windows_chained (Examples.quiet 1800) "/uploads/a.mp3" "/uploads" "a"
                               1800 240 30); reflexivity.
Defined.

Lemma splitLoop_state_indep w outputDir baseName D C O fuel :
  (forall k, clipError w k = None) ->
  forall startT idx chunks s1 s2,
    fst (splitLoop w outputDir baseName D C O fuel startT idx chunks s1)
    = fst (splitLoop w outputDir baseName D C O fuel startT idx chunks s2).
Proof.
  intros Hclip. induction fuel as [|fuel IH]; intros startT idx chunks s1 s2;
    [reflexivity|].
  simpl. destruct (Qlt_bool startT D); [|reflexivity].
  destruct (ffmpegClip_total w idx (chunkPathOf outputDir baseName idx) s1 (Hclip idx))
    as [s1' E1].
  destruct (ffmpegClip_total w idx (chunkPathOf outputDir baseName idx) s2 (Hclip idx))
    as [s2' E2].
  rewrite (bind_step _ _ _ _ _ E1), (bind_step _ _ _ _ _ E2).
  destruct (Qlt_bool _ _); [reflexivity|]. apply IH.
Qed.

(** What the loop leaves uncovered: the last window ends at the end of the
    source or less than [O] seconds before it. *)
Lemma splitLoop_tail w outputDir baseName D C O fuel :
  0 <= O ->
  forall startT idx chunks s res s',
    splitLoop w outputDir baseName D C O fuel startT idx chunks s = (Ok res, s') ->
    (chunks = [] -> startT < D) ->
    (forall a, last chunks = Some a -> startT = endTime a - O /\ endTime a <= D) ->
    exists c, last res = Some c
              /\ endTime c <= D
              /\ (endTime c == D \/ D - endTime c < O).
Proof.
  intros HO. induction fuel as [|fuel IH]; intros startT idx chunks s res s' Hrun Hnil Hlast;
    [discriminate|].
  simpl in Hrun. destruct (Qlt_bool startT D) eqn:Hcond.
  - apply bind_Ok in Hrun as ([] & s1 & _ & Hrun).
    set (c := mkChunk (chunkPathOf outputDir baseName idx) startT
                      (Qmin (startT + C) D) false) in *.
    assert (Hc : endTime c <= D) by apply Q.le_min_r.
    destruct (Qlt_bool (D - (Qmin (startT + C) D - O)) (O * 2)) eqn:Hbrk.
    + injection Hrun as <- _. exists c. rewrite last_snoc.
      split; [reflexivity|]. split; [exact Hc|]. right.
      apply Qlt_bool_iff in Hbrk. simpl. lra.
    + eapply IH; [exact Hrun| |].
      * intros Habs. destruct chunks; discriminate Habs.
      * intros a Ha. rewrite last_snoc in Ha. injection Ha as <-.
        split; [reflexivity|exact Hc].
  - injection Hrun as <- _.
    assert (Hge : D <= startT).
    { apply Qnot_lt_le. intros Hlt. apply Qlt_bool_iff in Hlt. congruence. }
    destruct (last chunks) as [a|] eqn:Ha.
    + destruct (Hlast a eq_refl) as [Hs Hle]. exists a.
      split; [reflexivity|]. split; [exact Hle|]. left.
      rewrite Hs in Hge. lra.
    + exfalso. apply last_None in Ha. apply Hnil in Ha. lra.
Qed.

(** C3. The loop of [splitAudioIntoChunks] stops when less than [2 * O]
    seconds remain after the next start, but it does not extend the last
    window: for a source of 1730 s cut into 240 s chunks with 30 s of
    overlap, the call returns eight descriptors, the last one ending at
    1710 s, and the last 20 s of the source are in no window. *)
Theorem split_drops_short_tail :
  forall (fuel : nat) (s : State), (8 <= fuel)%nat ->
    exists chunks s' c,
      splitAudioIntoChunks fuel (Examples.quiet 1730) "/uploads/a.mp3" "/uploads" "a"
                           240 30 s = (Ok chunks, s')
      /\ length chunks = 8%nat
      /\ last chunks = Some c
      /\ endTime c == 1710
      /\ (forall c', c' ∈ chunks -> endTime c' <= 1710)
      /\ ~ endTime c == 1730.
Proof.
  intros fuel s Hfuel.
  pose (expected := imap (fun i (_ : unit) =>
              mkChunk (chunkPathOf "/uploads" "a" i)
                      (inject_Z (Z.of_nat i) * 210)
                      (inject_Z (Z.of_nat i) * 210 + 240) false)
              (replicate 8 tt)).
  assert (H0 : fst (splitLoop (Examples.quiet 1730) "/uploads" "a" 1730 240 30 8 0 0 []
                              (mkState ∅ [] [])) = Ok expected).
  { vm_compute. reflexivity. }
  rewrite (splitLoop_state_indep (Examples.quiet 1730) _ _ _ _ _ _ (fun _ => eq_refl) _ _ _ _ s) in H0.
  destruct (splitLoop (Examples.quiet 1730) "/uploads" "a" 1730 240 30 8 0 0 [] s)
    as [r s1] eqn:E8.
  simpl in H0. subst r.
  exists expected, s1.
  eexists. split; [|split; [|split; [|split; [|split]]]].
  - change (splitLoop (Examples.quiet 1730) "/uploads" "a" 1730 240 30 fuel 0 0 [] s
            = (Ok expected, s1)).
    replace fuel with (8 + (fuel - 8))%nat by lia.
    apply splitLoop_fuel_mono. exact E8.
  - reflexivity.
  - reflexivity.
  - vm_compute. reflexivity.
  - intros c' Hc'. apply list_elem_of_In in Hc'. simpl in Hc'.
    repeat (destruct Hc' as [<-|Hc']; [vm_compute; discriminate|]).
    contradiction.
  - vm_compute. discriminate.
Qed.

Lemma split_drops_short_tail_witness :
  exists chunks s' c,
    splitAudioIntoChunks 8 (Examples.quiet 1730) "/uploads/a.mp3" "/uploads" "a"
                         240 30 (mkState ∅ [] []) = (Ok chunks, s')
    /\ length chunks = 8%nat
    /\ last chunks = Some c
    /\ endTime c == 1710
    /\ (forall c', c' ∈ chunks -> endTime c' <= 1710)
    /\ ~ endTime c == 1730.
Proof.
  apply (split_drops_short_tail 8 (mkState ∅ [] [])). lia.
Defined.

End SplitClaims.

(** *** The seam *)

Section SeamClaims.
Import Merge.

Lemma mergeChunkSegments_nonempty acc new t o :
  acc <> [] ->
  mergeChunkSegments acc new t o
  = List.filter (keepExisting t) acc ++ List.filter (keepNew t) new.
Proof.
  intros Hacc. unfold mergeChunkSegments.
  destruct acc as [|a acc']; [congruence|reflexivity].
Qed.


Lemma kept_new acc new t o b :
  In b new -> t - 1 <= start b -> In b (mergeChunkSegments acc new t o).
Proof.
  intros Hin Hle. unfold mergeChunkSegments.
  destruct (length acc =? 0)%nat; [exact Hin|].
  apply in_or_app. right. apply filter_In. split; [exact Hin|].
  apply Qle_bool_iff, Hle.
Qed.




End SeamClaims.

(** *** Fan-in order *)

Section DispatchClaims.
Import Merge Dispatch Route.

#[local] Instance indexLe_trans : Transitive indexLe.
Proof. intros a b c. unfold indexLe. lia. Qed.

#[local] Instance indexLe_total : Total indexLe.
Proof. intros a b. unfold indexLe. lia. Qed.

(** The values of the chunk promises carry their position as [index]. *)
Lemma allValues_lookup {A} (outcomes : list (Result A)) (values : list A) :
  allValues outcomes = Some values ->
  forall i, outcomes !! i = Ok <$> values !! i.
Proof.
  revert values. induction outcomes as [|[a| |] outcomes IH]; intros values H i;
    simpl in H; try discriminate.
  - injection H as <-. reflexivity.
  - destruct (allValues outcomes) as [vs|] eqn:E; [|discriminate].
    injection H as <-. destruct i as [|i]; [reflexivity|]. simpl. apply IH. reflexivity.
Qed.

Lemma promised_index (w : World) (chunks : list Chunk) (values : list Tagged) :
  allValues (transcriptionPromises w chunks) = Some values ->
  forall i t, values !! i = Some t -> index t = i.
Proof.
  intros Hall i t Ht.
  pose proof (allValues_lookup _ _ Hall i) as Hi.
  rewrite Ht in Hi. unfold transcriptionPromises in Hi.
  rewrite list_lookup_imap in Hi.
  destruct (chunks !! i) as [c|]; [|discriminate].
  simpl in Hi. destruct (backend w (path c)); simpl in Hi; try discriminate.
  injection Hi as <-. reflexivity.
Qed.

Lemma StronglySorted_lookup {A} (R : relation A) (l : list A) :
  StronglySorted R l <->
  forall i j a b, (i < j)%nat -> l !! i = Some a -> l !! j = Some b -> R a b.
Proof.
  split.
  - induction 1 as [|x l Hl IH Hx]; intros i j a b Hij Ha Hb.
    + discriminate.
    + destruct j as [|j]; [lia|]. simpl in Hb. destruct i as [|i].
      * injection Ha as <-. rewrite Forall_lookup in Hx. eapply Hx, Hb.
      * simpl in Ha. eapply IH; [|exact Ha|exact Hb]. lia.
  - induction l as [|x l IH]; intros H; constructor.
    + apply IH. intros i j a b Hij Ha Hb. apply (H (S i) (S j)); [lia|exact Ha|exact Hb].
    + apply Forall_lookup. intros j b Hb. apply (H 0%nat (S j)); [lia|reflexivity|exact Hb].
Qed.

Lemma index_positions_sorted (values : list Tagged) :
  (forall i t, values !! i = Some t -> index t = i) ->
  StronglySorted indexLe values.
Proof.
  intros Hidx. apply StronglySorted_lookup. intros i j a b Hij Ha Hb.
  unfold indexLe. rewrite (Hidx i a Ha), (Hidx j b Hb). lia.
Qed.

Lemma sortByIndex_restores (values collected : list Tagged) :
  (forall i t, values !! i = Some t -> index t = i) ->
  collected ≡ₚ values ->
  sortByIndex collected = values.
Proof.
  intros Hidx Hperm. unfold sortByIndex.
  apply (StronglySorted_unique_strong indexLe).
  - intros x1 x2 Hx1 Hx2 H12 H21.
    rewrite merge_sort_Permutation, Hperm in Hx1.
    apply list_elem_of_lookup in Hx1 as [i Hi], Hx2 as [j Hj].
    pose proof (Hidx i x1 Hi). pose proof (Hidx j x2 Hj).
    unfold indexLe in *. assert (i = j) as -> by lia. congruence.
  - apply StronglySorted_merge_sort; apply _.
  - apply index_positions_sorted, Hidx.
  - rewrite merge_sort_Permutation. exact Hperm.
Qed.

Lemma allValues_no_rejection {A} (order : list nat) (outcomes : list (Result A))
    (values : list A) :
  allValues outcomes = Some values -> firstRejection order outcomes = None.
Proof.
  intros Hall. unfold firstRejection.
  induction (order ++ seq 0 (length outcomes)) as [|i l IH]; [reflexivity|].
  simpl. rewrite (allValues_lookup _ _ Hall i).
  destruct (values !! i); simpl; exact IH.
Qed.

(** C4. Let [values] be the tagged results of the chunk transcriptions.
    In whatever order the promises settle, [Promise.all] resolves with
    [values]; and in whatever order the results are collected, sorting them
    by [index] restores [values], so sorting and then merging yields the
    list obtained by merging the chunks in sequence order.  Two collection
    orders of the same results therefore give the same merged segments and
    duration. *)
Theorem merge_order_invariant :
  forall (w : World) (chunks : list Chunk) (values collected collected' : list Tagged)
         (overlap : Q),
    allValues (transcriptionPromises w chunks) = Some values ->
    collected ≡ₚ values -> collected' ≡ₚ values ->
    (forall (order : list nat) (s : State),
        promiseAll order (transcriptionPromises w chunks) s = (Ok values, s))
    /\ sortByIndex collected = values
    /\ sortAndMerge overlap collected = mergeLoop overlap values
    /\ sortAndMerge overlap collected = sortAndMerge overlap collected'.
Proof.
  intros w chunks values collected collected' overlap Hall Hp Hp'.
  pose proof (promised_index w chunks values Hall) as Hidx.
  split.
  - intros order s. unfold promiseAll.
    rewrite (allValues_no_rejection order _ _ Hall), Hall. reflexivity.
  - unfold sortAndMerge.
    rewrite (sortByIndex_restores values collected Hidx Hp).
    rewrite (sortByIndex_restores values collected' Hidx Hp').
    repeat split; reflexivity.
Qed.

Lemma merge_order_invariant_witness :
  (forall (order : list nat) (s : State),
      promiseAll order
        (transcriptionPromises
           (Examples.world 450 (fun _ => None)
              (fun p => if String.eqb p (path Examples.chunk0)
                        then Ok (result Examples.earlier)
                        else Ok (result Examples.later)))
           [Examples.chunk0; Examples.chunk1]) s
      = (Ok [Examples.earlier; Examples.later], s))
  /\ sortByIndex [Examples.later; Examples.earlier] = [Examples.earlier; Examples.later]
  /\ sortAndMerge 30 [Examples.later; Examples.earlier]
     = mergeLoop 30 [Examples.earlier; Examples.later]
  /\ sortAndMerge 30 [Examples.later; Examples.earlier]
     = sortAndMerge 30 [Examples.earlier; Examples.later].
Proof.
  apply (merge_order_invariant
           (Examples.world 450 (fun _ => None)
              (fun p => if String.eqb p (path Examples.chunk0)
                        then Ok (result Examples.earlier)
                        else Ok (result Examples.later)))
           [Examples.chunk0; Examples.chunk1]
           [Examples.earlier; Examples.later]
           [Examples.later; Examples.earlier]
           [Examples.earlier; Examples.later] 30).
  - reflexivity.
  - apply perm_swap.
  - reflexivity.
Defined.

End DispatchClaims.

(** *** Order of the merged transcript *)

Section OrderClaims.
Import Merge Dispatch.


Lemma precedes_weaken (a b : Segment) : precedes 0 a b -> precedes 2 a b.
Proof. unfold precedes. lra. Qed.









End OrderClaims.

(** *** The speaker normaliser *)

Section NormalizeFacts.
Import Normalize.

Lemma truthy_speaker_prefix (code : string) : truthy ("Speaker " +:+ code) = true.
Proof. reflexivity. Qed.

Lemma orElse_truthy (a b : string) : truthy b = true -> truthy (orElse a b) = true.
Proof. unfold orElse. destruct (truthy a) eqn:E; auto. Qed.

Lemma labelAt_truthy labels k code : truthy (labelAt labels k code) = true.
Proof. apply orElse_truthy, truthy_speaker_prefix. Qed.

Lemma truthy_nonempty (s : string) : truthy s = true <-> s <> "".
Proof.
  unfold truthy. rewrite negb_true_iff. split.
  - intros H ->. discriminate.
  - intros H. destruct s; [congruence|reflexivity].
Qed.

Lemma orElse_generic (s : string) :
  isGenericLabel (orElse s "Unknown") = isGenericLabel s
  /\ (isGenericLabel s = true -> orElse s "Unknown" = s).
Proof.
  unfold orElse. destruct s as [|c s]; simpl.
  - split; [reflexivity|discriminate].
  - split; reflexivity.
Qed.

Lemma rankOf_None code seen : rankOf code seen = None <-> code ∉ seen.
Proof.
  induction seen as [|c rest IH]; simpl.
  - split; [intros _; apply not_elem_of_nil|reflexivity].
  - rewrite not_elem_of_cons. case_bool_decide as E.
    + split; [discriminate|]. intros [Hne _]. congruence.
    + destruct (rankOf code rest) eqn:R; simpl.
      * split; [discriminate|]. intros [_ Hn]. apply IH in Hn. discriminate.
      * split; [|reflexivity]. intros _. split; [congruence|]. apply IH. reflexivity.
Qed.

Lemma rankOf_lookup code seen k : rankOf code seen = Some k -> seen !! k = Some code.
Proof.
  revert k. induction seen as [|c rest IH]; intros k; simpl; [discriminate|].
  case_bool_decide as E.
  - intros [= <-]. simpl. congruence.
  - destruct (rankOf code rest) as [k'|]; simpl; [|discriminate].
    intros [= <-]. simpl. apply IH. reflexivity.
Qed.

Lemma lookup_rankOf code seen k :
  NoDup seen -> seen !! k = Some code -> rankOf code seen = Some k.
Proof.
  intros Hnd Hk. destruct (rankOf code seen) as [k'|] eqn:R.
  - apply rankOf_lookup in R. f_equal. eapply NoDup_lookup; eauto.
  - apply rankOf_None in R. exfalso. apply R. eapply list_elem_of_lookup_2, Hk.
Qed.

Lemma rankOf_app_l code seen more k :
  rankOf code seen = Some k -> rankOf code (seen ++ more) = Some k.
Proof.
  revert k. induction seen as [|c rest IH]; intros k; simpl; [discriminate|].
  case_bool_decide; [auto|].
  destruct (rankOf code rest) as [k'|]; simpl; [|discriminate].
  intros [= <-]. rewrite (IH k' eq_refl). reflexivity.
Qed.

Lemma rankOf_snoc_new code seen :
  code ∉ seen -> rankOf code (seen ++ [code]) = Some (length seen).
Proof.
  induction seen as [|c rest IH]; simpl; intros Hn.
  - rewrite bool_decide_eq_true_2 by reflexivity. reflexivity.
  - apply not_elem_of_cons in Hn as [Hne Hn].
    rewrite bool_decide_eq_false_2 by congruence.
    rewrite (IH Hn). reflexivity.
Qed.

Lemma rankOf_snoc_other code other seen :
  code <> other -> rankOf code (seen ++ [other]) = rankOf code seen.
Proof.
  intros Hne. induction seen as [|c rest IH]; simpl.
  - rewrite bool_decide_eq_false_2 by congruence. reflexivity.
  - rewrite IH. reflexivity.
Qed.

Lemma rankOf_addCode code seen c k :
  rankOf code seen = Some k -> rankOf code (addCode seen c) = Some k.
Proof.
  intros H. unfold addCode. case_bool_decide; [exact H|].
  apply rankOf_app_l, H.
Qed.

Lemma rankOf_firstSeenFrom code cs :
  forall seen k, rankOf code seen = Some k ->
                 rankOf code (firstSeenFrom seen cs) = Some k.
Proof.
  induction cs as [|c cs IH]; intros seen k H; simpl; [exact H|].
  apply IH, rankOf_addCode, H.
Qed.

Lemma NoDup_addCode seen c : NoDup seen -> NoDup (addCode seen c).
Proof.
  intros H. unfold addCode. case_bool_decide as E; [exact H|].
  apply NoDup_app. split; [exact H|]. split.
  - intros x Hx Hx'. apply list_elem_of_singleton in Hx'. subst. contradiction.
  - apply NoDup_singleton.
Qed.

Lemma NoDup_firstSeenFrom cs : forall seen, NoDup seen -> NoDup (firstSeenFrom seen cs).
Proof.
  induction cs as [|c cs IH]; intros seen H; simpl; [exact H|].
  apply IH, NoDup_addCode, H.
Qed.

Lemma elem_of_addCode seen c : c ∈ addCode seen c.
Proof.
  unfold addCode. case_bool_decide as E; [exact E|].
  apply elem_of_app. right. apply list_elem_of_singleton. reflexivity.
Qed.

Lemma tracks_init labels : tracks labels (∅, 0%nat) [].
Proof. split; [reflexivity|]. intros code. reflexivity. Qed.

Lemma getOr_insert (m : gmap string string) (k v code : string) :
  getOr (<[k := v]> m) code = if decide (k = code) then v else getOr m code.
Proof. unfold getOr. rewrite lookup_insert. destruct (decide (k = code)); reflexivity. Qed.

(** One call of the callback on a generic code. *)
Lemma processSegment_generic labels st seen index seg :
  tracks labels st seen -> isGenericLabel (speaker seg) = true ->
  exists st',
    processSegment labels st index seg
    = (st', Out.mk index (start seg) (end_ seg) (text seg)
                   (assignedIn labels (addCode seen (speaker seg)) (speaker seg)))
    /\ tracks labels st' (addCode seen (speaker seg)).
Proof.
  intros [Hidx Hmap] Hgen. destruct st as [speakerMap unknownIndex]. simpl in *.
  destruct (orElse_generic (speaker seg)) as [Hg1 Hg2].
  unfold processSegment. rewrite Hg1, Hgen, (Hg2 Hgen).
  pose proof (Hmap (speaker seg)) as Hcur.
  unfold addCode.
  destruct (rankOf (speaker seg) seen) as [k|] eqn:R.
  - assert (Ht : truthy (getOr speakerMap (speaker seg)) = true).
    { rewrite Hcur. unfold assignedIn. rewrite R. apply labelAt_truthy. }
    rewrite Ht. simpl.
    assert (speaker seg ∈ seen) as Hin.
    { destruct (decide (speaker seg ∈ seen)) as [|Hn]; [assumption|].
      apply rankOf_None in Hn. congruence. }
    rewrite bool_decide_eq_true_2 by exact Hin.
    exists (speakerMap, unknownIndex). split; [|split; [exact Hidx|exact Hmap]].
    rewrite Hcur. reflexivity.
  - assert (Ht : truthy (getOr speakerMap (speaker seg)) = false).
    { rewrite Hcur. unfold assignedIn. rewrite R. reflexivity. }
    rewrite Ht. simpl. apply rankOf_None in R.
    rewrite bool_decide_eq_false_2 by exact R.
    exists (<[speaker seg := labelAt labels unknownIndex (speaker seg)]> speakerMap,
            S unknownIndex).
    split.
    + rewrite getOr_insert. rewrite decide_True by reflexivity.
      unfold assignedIn. rewrite (rankOf_snoc_new _ _ R), Hidx. reflexivity.
    + split; simpl.
      * rewrite length_app. simpl. lia.
      * intros code. rewrite getOr_insert. unfold assignedIn.
        destruct (decide (speaker seg = code)) as [<-|Hne].
        -- rewrite (rankOf_snoc_new _ _ R), Hidx. reflexivity.
        -- rewrite rankOf_snoc_other by congruence. apply Hmap.
Qed.

Lemma processSegment_other labels st index seg :
  isGenericLabel (speaker seg) = false ->
  processSegment labels st index seg
  = (st, Out.mk index (start seg) (end_ seg) (text seg)
                (orElse (speaker seg) "Unknown")).
Proof.
  intros Hgen. destruct st as [speakerMap unknownIndex].
  destruct (orElse_generic (speaker seg)) as [Hg1 _].
  unfold processSegment. rewrite Hg1, Hgen. reflexivity.
Qed.

Lemma mapSegments_lookup labels segs :
  forall st seen n i seg,
    tracks labels st seen ->
    segs !! i = Some seg ->
    mapSegments labels st n segs !! i
    = Some (Out.mk (n + i) (start seg) (end_ seg) (text seg)
                   (resolved labels (firstSeenFrom seen (codes segs)) (speaker seg))).
Proof.
  induction segs as [|s segs IH]; intros st seen n i seg Htr Hi; [discriminate|].
  unfold codes in *. simpl.
  destruct (isGenericLabel (speaker s)) eqn:Hgen.
  - destruct (processSegment_generic labels st seen n s Htr Hgen) as (st' & -> & Htr').
    simpl. destruct i as [|i]; simpl in *.
    + injection Hi as <-. unfold resolved. rewrite Hgen, Nat.add_0_r.
      do 2 f_equal. unfold assignedIn.
      destruct (rankOf (speaker s) (addCode seen (speaker s))) as [k|] eqn:R.
      * rewrite (rankOf_firstSeenFrom _ _ _ _ R). reflexivity.
      * apply rankOf_None in R. exfalso. apply R, elem_of_addCode.
    + rewrite (IH st' (addCode seen (speaker s)) (S n) i seg Htr' Hi).
      do 2 f_equal. lia.
  - rewrite (processSegment_other labels st n s Hgen).
    destruct i as [|i]; simpl in *.
    + injection Hi as <-. unfold resolved. rewrite Hgen, Nat.add_0_r. reflexivity.
    + rewrite (IH st seen (S n) i seg Htr Hi). do 2 f_equal. lia.
Qed.

Lemma length_mapSegments labels segs :
  forall st n, length (mapSegments labels st n segs) = length segs.
Proof.
  induction segs as [|s segs IH]; intros st n; simpl; [reflexivity|].
  destruct (processSegment labels st n s) as [st' out]. simpl. rewrite IH. reflexivity.
Qed.

Lemma processTranscription_lookup segs config i seg :
  segs !! i = Some seg ->
  processTranscription segs config !! i
  = Some (Out.mk i (start seg) (end_ seg) (text seg)
                 (resolved (default defaultUnknownLabels (unknown_speaker_labels config))
                           (firstSeen (codes segs)) (speaker seg))).
Proof.
  intros Hi. unfold processTranscription.
  rewrite (mapSegments_lookup _ segs (∅, 0%nat) [] 0%nat i seg (tracks_init _) Hi).
  reflexivity.
Qed.

End NormalizeFacts.

Section NormalizeClaims.
Import Normalize.

Lemma elem_of_firstSeenFrom code cs :
  forall seen, code ∈ seen \/ code ∈ cs -> code ∈ firstSeenFrom seen cs.
Proof.
  induction cs as [|c cs IH]; intros seen [H|H]; simpl.
  - exact H.
  - apply elem_of_nil in H. contradiction.
  - apply IH. left. unfold addCode. case_bool_decide; [exact H|].
    apply elem_of_app. left. exact H.
  - apply elem_of_cons in H as [->|H].
    + apply IH. left. apply elem_of_addCode.
    + apply IH. right. exact H.
Qed.

Lemma firstSeenFrom_elem_of code cs :
  forall seen, code ∈ firstSeenFrom seen cs -> code ∈ seen \/ code ∈ cs.
Proof.
  induction cs as [|c cs IH]; intros seen H; simpl in H; [left; exact H|].
  apply IH in H as [H|H].
  - unfold addCode in H. case_bool_decide; [left; exact H|].
    apply elem_of_app in H as [H|H]; [left; exact H|].
    apply list_elem_of_singleton in H as ->. right. left.
  - right. right. exact H.
Qed.

Lemma codes_generic (segs : list Segment) (code : string) :
  code ∈ codes segs <-> isGenericLabel code = true /\ exists seg, seg ∈ segs /\ speaker seg = code.
Proof.
  unfold codes. rewrite list_elem_of_In, filter_In, <- list_elem_of_In, list_elem_of_fmap.
  split.
  - intros [(seg & -> & Hseg) Hg]. split; [exact Hg|]. exists seg. split; [exact Hseg|reflexivity].
  - intros [Hg (seg & Hseg & <-)]. split; [|exact Hg]. exists seg. split; [reflexivity|exact Hseg].
Qed.

Lemma NoDup_firstSeen cs : NoDup (firstSeen cs).
Proof. apply NoDup_firstSeenFrom, NoDup_nil_2. Qed.

Lemma resolved_code labels (segs : list Segment) (code : string) (k : nat) :
  firstSeen (codes segs) !! k = Some code ->
  resolved labels (firstSeen (codes segs)) code = labelAt labels k code.
Proof.
  intros Hk.
  assert (Hg : isGenericLabel code = true).
  { apply list_elem_of_lookup_2, firstSeenFrom_elem_of in Hk as [Hk|Hk].
    - apply elem_of_nil in Hk. contradiction.
    - apply codes_generic in Hk as [Hg _]. exact Hg. }
  unfold resolved, assignedIn. rewrite Hg.
  rewrite (lookup_rankOf _ _ _ (NoDup_firstSeen _) Hk). reflexivity.
Qed.


Lemma labelAt_exhausted labels k code :
  (length labels <= k)%nat -> labelAt labels k code = "Speaker " +:+ code.
Proof.
  intros Hk. unfold labelAt, nthOr. rewrite (lookup_ge_None_2 _ _ Hk). reflexivity.
Qed.

Lemma code_has_rank (segs : list Segment) i seg :
  segs !! i = Some seg -> isGenericLabel (speaker seg) = true ->
  exists k, firstSeen (codes segs) !! k = Some (speaker seg).
Proof.
  intros Hi Hg. apply list_elem_of_lookup_1, elem_of_firstSeenFrom. right.
  apply codes_generic. split; [exact Hg|]. exists seg. split; [|reflexivity].
  eapply list_elem_of_lookup_2, Hi.
Qed.



(** C10. A generic code whose rank among the distinct codes, in order of
    first appearance, is not below the number of fallback labels is written
    as ["Speaker "] followed by the code, at every occurrence. *)
Theorem exhausted_labels_fallback :
  forall (segs : list Segment) (config : Config) (i k : nat) (seg : Segment),
    segs !! i = Some seg ->
    firstSeen (codes segs) !! k = Some (speaker seg) ->
    (length (default defaultUnknownLabels (unknown_speaker_labels config)) <= k)%nat ->
    exists o, processTranscription segs config !! i = Some o
              /\ Out.speaker o = "Speaker " +:+ speaker seg.
Proof.
  intros segs config i k seg Hi Hk Hlen.
  eexists. split; [apply processTranscription_lookup, Hi|]. simpl.
  rewrite (resolved_code _ _ _ _ Hk). apply labelAt_exhausted, Hlen.
Qed.


Lemma exhausted_labels_fallback_witness :
  exists o,
    processTranscription (map Examples.saidBy ["A"; "B"; "D"; "E"; "C"]) (mkConfig None)
      !! 4%nat = Some o
    /\ Out.speaker o = "Speaker C".
Proof.
  apply (exhausted_labels_fallback (map Examples.saidBy ["A"; "B"; "D"; "E"; "C"])
                                   (mkConfig None) 4 4 (Examples.saidBy "C")).
  - reflexivity.
  - reflexivity.
  - simpl. lia.
Defined.

End NormalizeClaims.

(** *** Temporary files and response metadata *)

Section RouteClaims.
Import Merge Files Split Dispatch Normalize Route.
Local Open Scope eff_scope.

(** One guarded [unlink] of [cleanupFiles] never throws; it removes the
    file unless [unlink] fails, and then it writes one line to the
    console. *)
Lemma cleanup_one (w : World) (filePath : string) (s : State) :
  exists s',
    tryCatch
      (unlinkIfExists w filePath)
      (fun err => consoleError ("Failed to clean up " +:+ filePath +:+ ": " +:+ err)) s
    = (Ok tt, s')
    /\ files s' ⊆ files s
    /\ chunkFiles s' = chunkFiles s
    /\ (unlinkError w filePath = None -> (filePath ∉ files s') /\ console s' = console s)
    /\ (forall e, unlinkError w filePath = Some e -> filePath ∈ files s ->
          files s' = files s
          /\ console s' = console s ++ ["Failed to clean up " +:+ filePath +:+ ": " +:+ e]).
Proof.
  unfold tryCatch, unlinkIfExists, bind, existsSync, unlinkSync, get, ret, bind, throw,
    modify, consoleError.
  simpl. destruct (bool_decide (filePath ∈ files s)) eqn:Hb; simpl.
  - apply bool_decide_eq_true in Hb as Hin. rewrite Hb.
    destruct (unlinkError w filePath) as [e|] eqn:E; simpl.
    + eexists. split; [reflexivity|]. simpl.
      split; [reflexivity|]. split; [reflexivity|]. split; [discriminate|].
      intros e' [= <-] _. split; reflexivity.
    + eexists. split; [reflexivity|]. simpl.
      split; [intros x Hx; apply elem_of_difference in Hx as [Hx _]; exact Hx|].
      split; [reflexivity|]. split; [|discriminate].
      intros _. split; [|reflexivity].
      intros Hx. apply elem_of_difference in Hx as [_ Hx].
      apply Hx, elem_of_singleton. reflexivity.
  - apply bool_decide_eq_false in Hb as Hin.
    exists s. split; [reflexivity|]. split; [reflexivity|]. split; [reflexivity|].
    split; [intros _; split; [exact Hin|reflexivity]|].
    intros e _ Hin'. contradiction.
Qed.

(** [cleanupFiles] always returns normally: no error of [unlink] leaves it.
    Afterwards no new file exists and every listed path whose [unlink] did
    not fail is gone. *)
Lemma cleanupFiles_total (w : World) (filePaths : list string) :
  forall s, exists s',
    cleanupFiles w filePaths s = (Ok tt, s')
    /\ files s' ⊆ files s
    /\ chunkFiles s' = chunkFiles s
    /\ (forall p, p ∈ filePaths -> unlinkError w p = None -> p ∉ files s').
Proof.
  induction filePaths as [|p rest IH]; intros s.
  - exists s. split; [reflexivity|]. split; [reflexivity|]. split; [reflexivity|].
    intros p Hp. apply elem_of_nil in Hp. contradiction.
  - destruct (cleanup_one w p s) as (s1 & E1 & Hsub1 & Hcf1 & Hgone & _).
    destruct (IH s1) as (s2 & E2 & Hsub2 & Hcf2 & Hrest).
    exists s2. split.
    + cbn [cleanupFiles]. rewrite (bind_step _ _ _ _ _ E1). exact E2.
    + split; [transitivity (files s1); assumption|]. split; [congruence|].
      intros q Hq Hok. apply elem_of_cons in Hq as [->|Hq].
      * destruct (Hgone Hok) as [Hn _]. intros Hq. apply Hn, Hsub2, Hq.
      * apply Hrest; assumption.
Qed.

(** The [catch] block answers with status 500 whatever the cleanup met. *)
Lemma catchBlock_responds (w : World) (uploadsDir : string) (req : Request)
    (message : string) (s : State) :
  exists e s', catchBlock w uploadsDir req message s = (Ok (Json500 e), s')
               /\ files s' ⊆ files s
               /\ (forall p, p ∈ audioPathOf uploadsDir req :: chunkFiles s ->
                     unlinkError w p = None -> p ∉ files s').
Proof.
  unfold catchBlock.
  destruct (cleanupFiles_total w (audioPathOf uploadsDir req :: chunkFiles s) s)
    as (s' & E & Hsub & _ & Hgone).
  eexists _, s'. split; [|split; [exact Hsub|exact Hgone]].
  unfold bind at 1. unfold get. simpl.
  rewrite (bind_step _ _ _ _ _ E). reflexivity.
Qed.

Lemma getFileSize_Ok (w : World) (filePath : string) s size s' :
  getFileSize w filePath s = (Ok size, s') -> size = statSize w filePath.
Proof.
  unfold getFileSize, bind, get, ret, throw. simpl.
  destruct (bool_decide (filePath ∈ files s)); [|discriminate].
  intros [= <- _]. reflexivity.
Qed.

(** What a successful response reports: [chunked] is the chunking decision
    and [chunksUsed] is computed from the duration and the chunk duration
    alone. *)
Lemma transcribe_metadata fuel w uploadsDir req present transcript raw total chunked used s' :
  transcribe fuel w uploadsDir req present
  = (Ok (Json200 transcript raw total chunked used), s') ->
  exists D,
    ffprobeDuration w = Ok D
    /\ chunked = needsChunkingOf D (statSize w (audioPathOf uploadsDir req))
                                 (chunkDurationOf req)
    /\ used = chunksUsedOf chunked D (chunkDurationOf req).
Proof.
  unfold transcribe, tryCatch.
  destruct (tryBlock fuel w uploadsDir req (mkState present [] [])) as [[resp|e|] s1] eqn:E.
  - intros [= -> ->]. unfold tryBlock in E.
    apply bind_Ok in E as (_ & s2 & _ & E).
    apply bind_Ok in E as (D & s3 & HD & E).
    apply bind_Ok in E as (size & s4 & Hsize & E).
    apply bind_Ok in E as (config & s5 & _ & E).
    apply bind_Ok in E as ([allSegments totalDuration] & s6 & _ & E).
    apply bind_Ok in E as (s7 & s8 & _ & E).
    apply bind_Ok in E as (_ & s9 & _ & E).
    injection E as _ _ _ <- <- _.
    apply getFileSize_Ok in Hsize as ->.
    exists D. split; [|split; reflexivity].
    unfold getAudioDuration, liftResult in HD. injection HD as HD _. exact HD.
  - destruct (catchBlock_responds w uploadsDir req e s1) as (e' & s2 & -> & _).
    discriminate.
  - discriminate.
Qed.

(** C6. The response reports [chunksUsed = ceil(duration /
    chunkDurationSeconds)], which ignores the overlap: for a 30-minute
    source and 4-minute chunks the splitter produces nine descriptors, nine
    chunk files are transcribed, and the response says [chunked: true,
    chunksUsed: 8]. *)
Theorem chunksUsed_ignores_overlap :
  (exists transcript raw total,
      fst (transcribe 9 (Examples.quiet 1800) "/uploads" Examples.request ∅)
      = Ok (Json200 transcript raw total true 8))
  /\ length (chunkFiles (snd (transcribe 9 (Examples.quiet 1800) "/uploads"
                                         Examples.request ∅))) = 9%nat
  /\ (exists chunks,
        fst (splitAudioIntoChunks 9 (Examples.quiet 1800) Examples.audioFile "/uploads"
               (sessionId Examples.request) (chunkDurationOf Examples.request)
               CHUNK_OVERLAP_SECONDS (mkState {[Examples.audioFile]} [] []))
        = Ok chunks
        /\ length chunks = 9%nat)
  /\ chunksUsedOf true 1800 (chunkDurationOf Examples.request) = 8%Z.
Proof.
  split; [|split; [|split]].
  - eexists _, _, _. vm_compute. reflexivity.
  - vm_compute. reflexivity.
  - eexists. split; [vm_compute; reflexivity|reflexivity].
  - vm_compute. reflexivity.
Qed.

(** C7. When a chunk transcription fails, the audio file and all chunk
    files are removed before the error is answered, and an error of the
    cleanup itself is logged and does not replace the original one.  When
    ffmpeg fails while cutting chunk 2, however, the route answers with the
    error while the files of chunks 0 and 1 are still on disk: they were
    never entered in [chunkFiles]. *)
Theorem cleanup_misses_chunks_of_failed_split :
  transcribe 9 (Examples.world 870 (fun _ => None) (Examples.backendFailsAt 1))
             "/uploads" Examples.request ∅
  = (Ok (Json500 "429 You exceeded your current quota"),
     mkState ∅ [] (Examples.chunkFile <$> [0; 1; 2; 3]%nat))
  /\ transcribe 9 (Examples.stubborn 870 (Examples.backendFailsAt 1) 3)
                "/uploads" Examples.request ∅
     = (Ok (Json500 "429 You exceeded your current quota"),
        mkState {[Examples.chunkFile 3]}
                ["Failed to clean up " +:+ Examples.chunkFile 3
                 +:+ ": EPERM: operation not permitted"]
                (Examples.chunkFile <$> [0; 1; 2; 3]%nat))
  /\ transcribe 9 (Examples.world 1800 (Examples.clipFailsAt 2) (fun _ => Ok Examples.oneSegment))
                "/uploads" Examples.request ∅
     = (Ok (Json500 "ffmpeg exited with code 1"),
        mkState {[Examples.chunkFile 0; Examples.chunkFile 1]} [] []).
Proof.
  split; [|split]; vm_compute; reflexivity.
Qed.

End RouteClaims.

(** *** More on the splitter: shape of the windows *)

Section SplitShape.
Import Merge Files Split.
Local Open Scope eff_scope.

Variables (w : World) (outputDir baseName : string).
Variables (D C O : Q).

Local Abbreviation loop := (splitLoop w outputDir baseName D C O).
Local Abbreviation pathOf := (chunkPathOf outputDir baseName).

(** What the loop knows about the descriptors pushed so far: the [i]-th
    one has the [i]-th chunk path and starts inside the source, and the
    loop went on after each of them but the last. *)
Lemma splitLoop_shape fuel :
  forall startT idx chunks s res s',
    loop fuel startT idx chunks s = (Ok res, s') ->
    idx = length chunks ->
    (forall i c, chunks !! i = Some c ->
       path c = pathOf i /\ isOriginal c = false /\ startTime c < D) ->
    (forall i a b, chunks !! i = Some a -> chunks !! S i = Some b ->
       ~ D - startTime b < O * 2) ->
    (forall a, last chunks = Some a -> ~ D - startT < O * 2) ->
    (forall c, head chunks = Some c -> startTime c = 0) ->
    (chunks = [] -> startT = 0) ->
    (forall i c, res !! i = Some c ->
       path c = pathOf i /\ isOriginal c = false /\ startTime c < D)
    /\ (forall i a b, res !! i = Some a -> res !! S i = Some b ->
          ~ D - startTime b < O * 2)
    /\ (forall c, head res = Some c -> startTime c = 0).
Proof.
  induction fuel as [|fuel IH];
    intros startT idx chunks s res s' Hrun Hidx Hsh Hgo Hlast Hhead Hnil; [discriminate|].
  simpl in Hrun. destruct (Qlt_bool startT D) eqn:Hcond.
  - apply Qlt_bool_iff in Hcond.
    apply bind_Ok in Hrun as ([] & s1 & _ & Hrun).
    set (c := mkChunk (pathOf idx) startT (Qmin (startT + C) D) false) in *.
    assert (Hsh' : forall i c', (chunks ++ [c]) !! i = Some c' ->
               path c' = pathOf i /\ isOriginal c' = false /\ startTime c' < D).
    { intros i c' Hi. apply lookup_app_Some in Hi as [Hi|[Hge Hi]]; [eauto|].
      apply list_lookup_singleton_Some in Hi as [Hi <-].
      replace i with idx by lia. repeat split; assumption. }
    assert (Hgo' : forall i a b, (chunks ++ [c]) !! i = Some a ->
               (chunks ++ [c]) !! S i = Some b -> ~ D - startTime b < O * 2).
    { intros i a b Ha Hb.
      apply lookup_app_Some in Hb as [Hb|[Hge Hb]].
      - rewrite lookup_app_l in Ha by (apply lookup_lt_Some in Hb; lia). eauto.
      - apply list_lookup_singleton_Some in Hb as [Hb <-]. simpl.
        rewrite lookup_app_l in Ha by lia.
        apply (Hlast a). rewrite last_lookup.
        replace (pred (length chunks)) with i by lia. exact Ha. }
    assert (Hhead' : forall c', head (chunks ++ [c]) = Some c' -> startTime c' = 0).
    { intros c' Hc'. destruct chunks as [|c0 chunks].
      - simpl in Hc'. injection Hc' as <-. simpl. apply Hnil. reflexivity.
      - simpl in Hc'. apply Hhead. exact Hc'. }
    destruct (Qlt_bool (D - (Qmin (startT + C) D - O)) (O * 2)) eqn:Hbrk.
    + injection Hrun as <- _. repeat split; eauto; apply Hsh' in H; tauto.
    + eapply IH; [exact Hrun| | | | | |]; try eassumption.
      * rewrite length_app. simpl. lia.
      * intros a Ha Hb. apply Qlt_bool_iff in Hb. congruence.
      * intros Habs. destruct chunks; discriminate Habs.
  - injection Hrun as <- _. repeat split; eauto; apply Hsh in H; tauto.
Qed.

End SplitShape.

Section SplitExtras.
Import Merge Files Split.
Local Open Scope eff_scope.

Lemma split_unfold (w : World) (audioPath outputDir baseName : string) (D C O : Q) :
  ffprobeDuration w = Ok D -> C < D ->
  forall fuel s,
    splitAudioIntoChunks fuel w audioPath outputDir baseName C O s
    = splitLoop w outputDir baseName D C O fuel 0 0 [] s.
Proof.
  intros HD HCD fuel s.
  assert (Hgt : Qle_bool D C = false).
  { destruct (Qle_bool D C) eqn:E; [|reflexivity].
    apply Qle_bool_iff in E. exfalso. apply (Qlt_not_le _ _ HCD E). }
  unfold splitAudioIntoChunks, bind, liftResult. rewrite HD, Hgt. reflexivity.
Qed.

(** The loop only appends, and appends at least one descriptor when it
    starts inside the source. *)
Lemma splitLoop_extends w outputDir baseName D C O fuel :
  forall startT idx chunks s res s',
    splitLoop w outputDir baseName D C O fuel startT idx chunks s = (Ok res, s') ->
    exists more, res = chunks ++ more /\ (startT < D -> more <> []).
Proof.
  induction fuel as [|fuel IH]; intros startT idx chunks s res s' Hrun; [discriminate|].
  simpl in Hrun. destruct (Qlt_bool startT D) eqn:Hcond.
  - apply bind_Ok in Hrun as ([] & s1 & _ & Hrun).
    destruct (Qlt_bool (D - (Qmin (startT + C) D - O)) (O * 2)).
    + injection Hrun as <- _. eexists. split; [reflexivity|]. intros _. discriminate.
    + apply IH in Hrun as (more & -> & _). rewrite <- app_assoc.
      eexists. split; [reflexivity|]. intros _. discriminate.
  - injection Hrun as <- _. exists []. split; [rewrite app_nil_r; reflexivity|].
    intros Hlt. apply Qlt_bool_iff in Hlt. congruence.
Qed.

(** The facts about the descriptors of a long source, gathered. *)
Lemma split_facts (w : World) (audioPath outputDir baseName : string) (D C O : Q)
    fuel s chunks s' :
  ffprobeDuration w = Ok D -> C < D ->
  splitAudioIntoChunks fuel w audioPath outputDir baseName C O s = (Ok chunks, s') ->
  Forall (windowOk D C) chunks
  /\ chained O chunks
  /\ (forall i c, chunks !! i = Some c ->
        path c = chunkPathOf outputDir baseName i /\ isOriginal c = false
        /\ startTime c < D)
  /\ (forall i a b, chunks !! i = Some a -> chunks !! S i = Some b ->
        ~ D - startTime b < O * 2)
  /\ (forall c, head chunks = Some c -> startTime c = 0).
Proof.
  intros HD HCD Hrun. rewrite (split_unfold _ _ _ _ _ _ _ HD HCD) in Hrun.
  pose proof Hrun as Hrun'.
  apply splitLoop_inv in Hrun as [Hw Hc];
    [|constructor|intros i a b Ha; discriminate|intros a Ha; discriminate].
  apply splitLoop_shape in Hrun' as (Hsh & Hgo & Hhead);
    try reflexivity; try (intros; discriminate).
  repeat split; try assumption; apply Hsh in H; tauto.
Qed.

(** Every window but the last has the full chunk duration, and the next
    window starts [C - O] seconds after it. *)
Theorem split_stride :
  forall (w : World) (audioPath outputDir baseName : string) (D C O : Q)
         fuel s chunks s',
    ffprobeDuration w = Ok D -> C < D ->
    splitAudioIntoChunks fuel w audioPath outputDir baseName C O s = (Ok chunks, s') ->
    (forall i a b, chunks !! i = Some a -> chunks !! S i = Some b ->
        endTime a == startTime a + C
        /\ startTime b == startTime a + (C - O))
    /\ (forall i c, chunks !! i = Some c ->
          startTime c == inject_Z (Z.of_nat i) * (C - O)).
Proof.
  intros w audioPath outputDir baseName D C O fuel s chunks s' HD HCD Hrun.
  destruct (split_facts _ _ _ _ _ _ _ _ _ _ _ HD HCD Hrun)
    as (Hw & Hc & Hsh & Hgo & Hhead).
  assert (Hstep : forall i a b, chunks !! i = Some a -> chunks !! S i = Some b ->
             endTime a == startTime a + C /\ startTime b == startTime a + (C - O)).
  { intros i a b Ha Hb.
    pose proof (Hc i a b Ha Hb) as Hsb.
    rewrite Forall_lookup in Hw. pose proof (Hw i a Ha) as Hea. unfold windowOk in Hea.
    destruct (Hsh _ _ Hb) as (_ & _ & HbD).
    pose proof (Hgo i a b Ha Hb) as Hnb.
    rewrite Hsb, Hea in HbD, Hnb. rewrite Hsb, Hea.
    destruct (Q.min_spec (startTime a + C) D) as [[Hlt Hmin]|[Hle Hmin]];
      rewrite Hmin in *.
    - split; lra.
    - exfalso. assert (0 < O) by lra. apply Hnb. lra. }
  split; [exact Hstep|].
  induction i as [|i IH]; intros c Hi.
  - destruct chunks as [|c0 rest]; [discriminate|]. injection Hi as <-.
    rewrite (Hhead c0 eq_refl). change (inject_Z (Z.of_nat 0)) with 0. lra.
  - destruct (lookup_lt_is_Some_2 chunks i) as [a Ha].
    { apply lookup_lt_Some in Hi. lia. }
    destruct (Hstep i a c Ha Hi) as [_ Hs]. rewrite Hs, (IH a Ha), inject_nat_succ. lra.
Qed.

Lemma split_stride_witness :
  exists chunks s',
    splitAudioIntoChunks 9 (Examples.quiet 1800) "/uploads/a.mp3" "/uploads" "a"
                         240 30 (mkState ∅ [] []) = (Ok chunks, s')
    /\ forall i c, chunks !! i = Some c ->
         startTime c == inject_Z (Z.of_nat i) * (240 - 30).
Proof.
  destruct (splitAudioIntoChunks 9 (Examples.quiet 1800) "/uploads/a.mp3" "/uploads" "a"
                                 240 30 (mkState ∅ [] [])) as [r s'] eqn:E.
  assert (Hr : exists chunks, r = Ok chunks).
  { change r with (fst (r, s')). rewrite <- E. vm_compute. eexists. reflexivity. }
  destruct Hr as [chunks ->]. exists chunks, s'. split; [reflexivity|].
  apply (split_stride (Examples.quiet 1800) "/uploads/a.mp3" "/uploads" "a"
                      1800 240 30 9 (mkState ∅ [] []) chunks s');
    [reflexivity|reflexivity|exact E].
Defined.

(** Every window is a non-empty part of the source, at most one chunk
    duration long. *)
Theorem split_windows_bounded :
  forall (w : World) (audioPath outputDir baseName : string) (D C O : Q)
         fuel s chunks s',
    ffprobeDuration w = Ok D -> C < D -> 0 < C ->
    splitAudioIntoChunks fuel w audioPath outputDir baseName C O s = (Ok chunks, s') ->
    chunks <> []
    /\ forall c, c ∈ chunks ->
         startTime c < endTime c /\ endTime c <= D
         /\ endTime c - startTime c <= C.
Proof.
  intros w audioPath outputDir baseName D C O fuel s chunks s' HD HCD HC Hrun.
  destruct (split_facts _ _ _ _ _ _ _ _ _ _ _ HD HCD Hrun)
    as (Hw & Hc & Hsh & Hgo & Hhead).
  split.
  - rewrite (split_unfold _ _ _ _ _ _ _ HD HCD) in Hrun.
    destruct (splitLoop_extends _ _ _ _ _ _ _ _ _ _ _ _ _ Hrun) as (more & -> & Hmore).
    simpl. apply Hmore. lra.
  - intros c Hc'. apply list_elem_of_lookup in Hc' as [i Hi].
    destruct (Hsh i c Hi) as (_ & _ & HsD).
    rewrite Forall_lookup in Hw. pose proof (Hw i c Hi) as He. unfold windowOk in He.
    rewrite He.
    destruct (Q.min_spec (startTime c + C) D) as [[Hlt Hmin]|[Hle Hmin]];
      rewrite Hmin; repeat split; lra.
Qed.


End SplitExtras.

Section SplitCoverage.
Import Merge Files Split.
Local Open Scope eff_scope.

(** Chained windows with a non-negative overlap leave no gap. *)
Lemma chained_no_gap (O : Q) (chunks : list Chunk) :
  0 <= O -> chained O chunks ->
  (forall c, c ∈ chunks -> startTime c <= endTime c) ->
  forall first final, head chunks = Some first -> last chunks = Some final ->
  forall t, startTime first <= t -> t <= endTime final ->
  exists c, c ∈ chunks /\ startTime c <= t /\ t <= endTime c.
Proof.
  intros HO. induction chunks as [|c rest IH]; intros Hch Hwf first final Hf Hl t Ht1 Ht2;
    [discriminate|].
  simpl in Hf. injection Hf as <-.
  destruct rest as [|c' rest'].
  - simpl in Hl. injection Hl as <-. exists c. split; [left|split; assumption].
  - destruct (Qlt_le_dec (endTime c) t) as [Hgt|Hle].
    + destruct (IH) with (first := c') (final := final) (t := t) as (x & Hx & Hx1 & Hx2).
      * intros i a b Ha Hb. apply (Hch (S i) a b); assumption.
      * intros x Hx. apply Hwf. right. exact Hx.
      * reflexivity.
      * exact Hl.
      * rewrite (Hch 0%nat c c' eq_refl eq_refl). lra.
      * exact Ht2.
      * exists x. split; [right; exact Hx|split; assumption].
    + exists c. split; [left|split; assumption].
Qed.

(** The windows cover the source from its beginning up to the last [O]
    seconds: every instant of [[0, D - O]] lies in some window. *)
Theorem split_covers_source :
  forall (w : World) (audioPath outputDir baseName : string) (D C O : Q)
         fuel s chunks s',
    ffprobeDuration w = Ok D -> C < D -> 0 < C -> 0 <= O ->
    splitAudioIntoChunks fuel w audioPath outputDir baseName C O s = (Ok chunks, s') ->
    forall t, 0 <= t -> t <= D - O ->
      exists c, c ∈ chunks /\ startTime c <= t /\ t <= endTime c.
Proof.
  intros w audioPath outputDir baseName D C O fuel s chunks s' HD HCD HC HO Hrun t Ht0 Ht.
  destruct (split_facts _ _ _ _ _ _ _ _ _ _ _ HD HCD Hrun)
    as (Hw & Hc & Hsh & Hgo & Hhead).
  rewrite (split_unfold _ _ _ _ _ _ _ HD HCD) in Hrun.
  destruct (splitLoop_tail w outputDir baseName D C O fuel HO 0 0%nat [] s chunks s' Hrun)
    as (final & Hlast & _ & Htail).
  { intros _. lra. }
  { intros a Ha. discriminate. }
  destruct chunks as [|first rest]; [discriminate|].
  apply (chained_no_gap O (first :: rest) HO Hc) with (first := first) (final := final).
  - intros c Hc'. apply list_elem_of_lookup in Hc' as [i Hi].
    destruct (Hsh i c Hi) as (_ & _ & HsD).
    rewrite Forall_lookup in Hw. pose proof (Hw i c Hi) as He. unfold windowOk in He.
    rewrite He.
    destruct (Q.min_spec (startTime c + C) D) as [[_ Hmin]|[_ Hmin]]; rewrite Hmin; lra.
  - reflexivity.
  - exact Hlast.
  - rewrite (Hhead first eq_refl). exact Ht0.
  - destruct Htail as [Heq|Hlt]; lra.
Qed.

Lemma split_covers_source_witness :
  exists chunks s',
    splitAudioIntoChunks 9 (Examples.quiet 1730) "/uploads/a.mp3" "/uploads" "a"
                         240 30 (mkState ∅ [] []) = (Ok chunks, s')
    /\ forall t, 0 <= t -> t <= 1730 - 30 ->
         exists c, c ∈ chunks /\ startTime c <= t /\ t <= endTime c.
Proof.
  destruct (splitAudioIntoChunks 9 (Examples.quiet 1730) "/uploads/a.mp3" "/uploads" "a"
                                 240 30 (mkState ∅ [] [])) as [r s'] eqn:E.
  assert (Hr : exists chunks, r = Ok chunks).
  { change r with (fst (r, s')). rewrite <- E. vm_compute. eexists. reflexivity. }
  destruct Hr as [chunks ->]. exists chunks, s'. split; [reflexivity|].
  apply (split_covers_source (Examples.quiet 1730) "/uploads/a.mp3" "/uploads" "a"
                             1730 240 30 9 (mkState ∅ [] []) chunks s');
    [reflexivity|reflexivity|reflexivity|discriminate|exact E].
Defined.

Lemma split_windows_bounded_witness :
  exists chunks s',
    splitAudioIntoChunks 9 (Examples.quiet 1730) "/uploads/a.mp3" "/uploads" "a"
                         240 30 (mkState ∅ [] []) = (Ok chunks, s')
    /\ (chunks <> []
        /\ forall c, c ∈ chunks ->
             startTime c < endTime c /\ endTime c <= 1730
             /\ endTime c - startTime c <= 240).
Proof.
  destruct (splitAudioIntoChunks 9 (Examples.quiet 1730) "/uploads/a.mp3" "/uploads" "a"
                                 240 30 (mkState ∅ [] [])) as [r s'] eqn:E.
  assert (Hr : exists chunks, r = Ok chunks).
  { change r with (fst (r, s')). rewrite <- E. vm_compute. eexists. reflexivity. }
  destruct Hr as [chunks ->]. exists chunks, s'. split; [reflexivity|].
  apply (split_windows_bounded (Examples.quiet 1730) "/uploads/a.mp3" "/uploads" "a"
                               1730 240 30 9 (mkState ∅ [] []) chunks s');
    [reflexivity|reflexivity|reflexivity|exact E].
Defined.

Lemma length_append (s1 s2 : string) :
  String.length (s1 +:+ s2) = (String.length s1 + String.length s2)%nat.
Proof. induction s1 as [|c s1 IH]; simpl; [reflexivity|]. rewrite IH. reflexivity. Qed.

Lemma append_inv_tail (s1 s2 t : string) : s1 +:+ t = s2 +:+ t -> s1 = s2.
Proof.
  revert s2. induction s1 as [|c s1 IH]; intros s2 H.
  - destruct s2 as [|c2 s2]; [reflexivity|]. exfalso.
    apply (f_equal String.length) in H.
    rewrite !length_append in H. simpl in H. lia.
  - destruct s2 as [|c2 s2].
    + exfalso. apply (f_equal String.length) in H.
      rewrite !length_append in H. simpl in H. lia.
    + simpl in H. injection H as -> H. f_equal. apply IH, H.
Qed.

Lemma chunkPathOf_inj (outputDir baseName : string) (i j : nat) :
  chunkPathOf outputDir baseName i = chunkPathOf outputDir baseName j -> i = j.
Proof.
  unfold chunkPathOf. intros H.
  repeat apply String.app_inj in H.
  apply append_inv_tail in H. apply (inj pretty) in H. exact H.
Qed.

(** The [i]-th descriptor is the cut written to the [i]-th chunk path; no
    two descriptors share a file, and none is the source file. *)
Theorem split_paths_distinct :
  forall (w : World) (audioPath outputDir baseName : string) (D C O : Q)
         fuel s chunks s',
    ffprobeDuration w = Ok D -> C < D ->
    splitAudioIntoChunks fuel w audioPath outputDir baseName C O s = (Ok chunks, s') ->
    (forall i c, chunks !! i = Some c ->
        path c = chunkPathOf outputDir baseName i /\ isOriginal c = false)
    /\ NoDup (path <$> chunks).
Proof.
  intros w audioPath outputDir baseName D C O fuel s chunks s' HD HCD Hrun.
  destruct (split_facts _ _ _ _ _ _ _ _ _ _ _ HD HCD Hrun)
    as (_ & _ & Hsh & _ & _).
  split.
  - intros i c Hi. destruct (Hsh i c Hi) as (Hp & Ho & _). split; assumption.
  - apply NoDup_alt. intros i j p Hi Hj.
    rewrite list_lookup_fmap in Hi, Hj.
    destruct (chunks !! i) as [ci|] eqn:Ei; [|discriminate].
    destruct (chunks !! j) as [cj|] eqn:Ej; [|discriminate].
    injection Hi as Hi. injection Hj as Hj.
    destruct (Hsh i ci Ei) as (Hpi & _). destruct (Hsh j cj Ej) as (Hpj & _).
    apply (chunkPathOf_inj outputDir baseName). congruence.
Qed.

Lemma split_paths_distinct_witness :
  exists chunks s',
    splitAudioIntoChunks 9 (Examples.quiet 1800) "/uploads/a.mp3" "/uploads" "a"
                         240 30 (mkState ∅ [] []) = (Ok chunks, s')
    /\ NoDup (path <$> chunks).
Proof.
  destruct (splitAudioIntoChunks 9 (Examples.quiet 1800) "/uploads/a.mp3" "/uploads" "a"
                                 240 30 (mkState ∅ [] [])) as [r s'] eqn:E.
  assert (Hr : exists chunks, r = Ok chunks).
  { change r with (fst (r, s')). rewrite <- E. vm_compute. eexists. reflexivity. }
  destruct Hr as [chunks ->]. exists chunks, s'. split; [reflexivity|].
  apply (split_paths_distinct (Examples.quiet 1800) "/uploads/a.mp3" "/uploads" "a"
                              1800 240 30 9 (mkState ∅ [] []) chunks s');
    [reflexivity|reflexivity|exact E].
Defined.

End SplitCoverage.

(** *** The splitter when ffmpeg fails, and when it cannot finish *)

Section SplitFailure.
Import Merge Files Split.
Local Open Scope eff_scope.

(** A guarded [unlink] inside [try]/[catch]: never throws, touches no other
    file, removes the file unless [unlink] fails. *)
Lemma guarded_unlink (w : World) (filePath : string) (report : string -> string)
    (s : State) :
  exists s',
    tryCatch (unlinkIfExists w filePath) (fun err => consoleError (report err)) s
    = (Ok tt, s')
    /\ chunkFiles s' = chunkFiles s
    /\ (forall q, q <> filePath -> (q ∈ files s' <-> q ∈ files s))
    /\ (filePath ∈ files s' -> filePath ∈ files s)
    /\ (unlinkError w filePath = None -> filePath ∉ files s').
Proof.
  unfold tryCatch, unlinkIfExists, bind, existsSync, unlinkSync, get, ret, bind, throw,
    modify, consoleError.
  simpl. destruct (bool_decide (filePath ∈ files s)) eqn:Hb; simpl.
  - apply bool_decide_eq_true in Hb as Hin. rewrite Hb.
    destruct (unlinkError w filePath) as [e|] eqn:E; simpl.
    + eexists. split; [reflexivity|]. simpl.
      split; [reflexivity|]. split; [intros q _; reflexivity|].
      split; [intros _; exact Hin|discriminate].
    + eexists. split; [reflexivity|]. simpl. split; [reflexivity|].
      split; [|split].
      * intros q Hq. rewrite elem_of_difference, elem_of_singleton. tauto.
      * intros _. exact Hin.
      * intros _ Hx. apply elem_of_difference in Hx as [_ Hx].
        apply Hx, elem_of_singleton. reflexivity.
  - apply bool_decide_eq_false in Hb as Hin.
    exists s. split; [reflexivity|]. split; [reflexivity|].
    split; [intros q _; reflexivity|]. split; [tauto|]. intros _. exact Hin.
Qed.

Lemma ffmpegClip_written (w : World) k p s u s' :
  ffmpegClip w k p s = (Ok u, s') ->
  files s' = files s ∪ {[p]} /\ chunkFiles s' = chunkFiles s.
Proof.
  unfold ffmpegClip, bind, writeFile, modify. simpl.
  destruct (clipError w k) as [e|].
  - unfold bind. destruct (safeDelete w p _) as [[[]| |] s1]; discriminate.
  - intros [= _ <-]. split; reflexivity.
Qed.

(** A failing cut rejects with the error of ffmpeg; its own output is
    removed unless [unlink] fails, and no other file is touched. *)
Lemma ffmpegClip_rejects (w : World) k p e s :
  clipError w k = Some e ->
  exists s',
    ffmpegClip w k p s = (Throw e, s')
    /\ chunkFiles s' = chunkFiles s
    /\ (forall q, q <> p -> (q ∈ files s' <-> q ∈ files s))
    /\ (unlinkError w p = None -> p ∉ files s').
Proof.
  intros E. unfold ffmpegClip. rewrite E.
  unfold bind at 1. unfold writeFile, modify.
  set (s1 := mkState (files s ∪ {[p]}) (console s) (chunkFiles s)).
  destruct (guarded_unlink w p (fun err => "Failed to delete " +:+ p +:+ ": " +:+ err) s1)
    as (s2 & E2 & Hcf & Hother & _ & Hgone).
  exists s2. split; [|split; [exact Hcf|split; [|exact Hgone]]].
  - unfold bind, safeDelete. rewrite E2. reflexivity.
  - intros q Hq. rewrite (Hother q Hq). unfold s1. simpl.
    rewrite elem_of_union, elem_of_singleton. tauto.
Qed.

Lemma splitLoop_throws w outputDir baseName D C O fuel :
  forall startT idx chunks s e s',
    splitLoop w outputDir baseName D C O fuel startT idx chunks s = (Throw e, s') ->
    (forall j, (j < idx)%nat -> chunkPathOf outputDir baseName j ∈ files s) ->
    exists k,
      clipError w k = Some e
      /\ (forall j, (j < k)%nat -> chunkPathOf outputDir baseName j ∈ files s')
      /\ (unlinkError w (chunkPathOf outputDir baseName k) = None ->
          chunkPathOf outputDir baseName k ∉ files s')
      /\ chunkFiles s' = chunkFiles s.
Proof.
  induction fuel as [|fuel IH]; intros startT idx chunks s e s' Hrun Hfiles; [discriminate|].
  simpl in Hrun. destruct (Qlt_bool startT D); [|discriminate].
  destruct (clipError w idx) as [e0|] eqn:Eclip.
  - destruct (ffmpegClip_rejects w idx (chunkPathOf outputDir baseName idx) e0 s Eclip)
      as (s1 & E1 & Hcf & Hother & Hgone).
    unfold bind in Hrun. rewrite E1 in Hrun. injection Hrun as <- <-.
    exists idx. split; [exact Eclip|]. split; [|split; [exact Hgone|exact Hcf]].
    intros j Hj. apply Hother; [|apply Hfiles, Hj].
    intros Heq. apply chunkPathOf_inj in Heq. lia.
  - destruct (ffmpegClip_total w idx (chunkPathOf outputDir baseName idx) s Eclip)
      as [s1 E1].
    rewrite (bind_step _ _ _ _ _ E1) in Hrun.
    destruct (ffmpegClip_written _ _ _ _ _ _ E1) as [Hf1 Hcf1].
    destruct (Qlt_bool (D - (Qmin (startT + C) D - O)) (O * 2)); [discriminate|].
    apply IH in Hrun as (k & Hk & Hkept & Hgone & Hcf).
    + exists k. split; [exact Hk|]. split; [exact Hkept|]. split; [exact Hgone|congruence].
    + intros j Hj. rewrite Hf1, elem_of_union, elem_of_singleton.
      destruct (decide (j = idx)) as [->|Hne]; [right; reflexivity|].
      left. apply Hfiles. lia.
Qed.

(** When [splitAudioIntoChunks] rejects on a long source, the reason is
    the ffmpeg error of some chunk [k]; the output of that chunk is removed
    unless [unlink] fails, while the files of the chunks [0 .. k-1], cut
    before it, are still on disk. *)
Theorem split_rejects_keeping_earlier_chunks :
  forall (w : World) (audioPath outputDir baseName : string) (D C O : Q)
         fuel s e s',
    ffprobeDuration w = Ok D -> C < D ->
    splitAudioIntoChunks fuel w audioPath outputDir baseName C O s = (Throw e, s') ->
    exists k,
      clipError w k = Some e
      /\ (forall j, (j < k)%nat -> chunkPathOf outputDir baseName j ∈ files s')
      /\ (unlinkError w (chunkPathOf outputDir baseName k) = None ->
          chunkPathOf outputDir baseName k ∉ files s')
      /\ chunkFiles s' = chunkFiles s.
Proof.
  intros w audioPath outputDir baseName D C O fuel s e s' HD HCD Hrun.
  rewrite (split_unfold _ _ _ _ _ _ _ HD HCD) in Hrun.
  apply splitLoop_throws in Hrun; [exact Hrun|]. intros j Hj. lia.
Qed.

Lemma split_rejects_keeping_earlier_chunks_witness :
  exists k,
    clipError (Examples.world 1800 (Examples.clipFailsAt 2) (fun _ => Ok Examples.oneSegment)) k
    = Some "ffmpeg exited with code 1"
    /\ (forall j, (j < k)%nat ->
          chunkPathOf "/uploads" "a" j
          ∈ ({[chunkPathOf "/uploads" "a" 0; chunkPathOf "/uploads" "a" 1]} : gset string)).
Proof.
  destruct (split_rejects_keeping_earlier_chunks
              (Examples.world 1800 (Examples.clipFailsAt 2) (fun _ => Ok Examples.oneSegment))
              "/uploads/a.mp3" "/uploads" "a" 1800 240 30 9 (mkState ∅ [] [])
              "ffmpeg exited with code 1"
              (mkState {[chunkPathOf "/uploads" "a" 0; chunkPathOf "/uploads" "a" 1]} [] []))
    as (k & Hk & Hkept & _).
  - reflexivity.
  - reflexivity.
  - vm_compute. reflexivity.
  - exists k. split; [exact Hk|exact Hkept].
Defined.

(** With an overlap at least as long as the chunk duration the cursor never
    advances: the loop cuts chunk after chunk and does not end. *)
Lemma splitLoop_diverges w outputDir baseName D C O :
  0 < C -> C <= O -> C + O <= D -> (forall k, clipError w k = None) ->
  forall fuel startT idx chunks s,
    startT <= 0 ->
    fst (splitLoop w outputDir baseName D C O fuel startT idx chunks s) = Diverge.
Proof.
  intros HC HCO HD Hclip. induction fuel as [|fuel IH]; intros startT idx chunks s Hs;
    [reflexivity|].
  simpl.
  assert (Hcond : Qlt_bool startT D = true) by (apply Qlt_bool_iff; lra).
  rewrite Hcond.
  destruct (ffmpegClip_total w idx (chunkPathOf outputDir baseName idx) s (Hclip idx))
    as [s1 E1].
  rewrite (bind_step _ _ _ _ _ E1).
  assert (Hmin : Qmin (startT + C) D == startT + C) by (apply Q.min_l; lra).
  assert (Hbrk : Qlt_bool (D - (Qmin (startT + C) D - O)) (O * 2) = false).
  { destruct (Qlt_bool (D - (Qmin (startT + C) D - O)) (O * 2)) eqn:E; [|reflexivity].
    apply Qlt_bool_iff in E. rewrite Hmin in E. lra. }
  rewrite Hbrk. apply IH. rewrite Hmin. lra.
Qed.

End SplitFailure.

(** *** The route: what is left on disk, and what is answered *)

Section RouteEffects.
Import Merge Files Split Dispatch Normalize Route Hoare.
Local Open Scope eff_scope.

Lemma triple_bind {A B} (P : State -> Prop) (m : M A) (k : A -> M B)
    (Q : A -> State -> Prop) (R : B -> State -> Prop) (E : State -> Prop) :
  triple P m Q E -> (forall a, triple (Q a) (k a) R E) -> triple P (bind m k) R E.
Proof.
  intros Hm Hk s Hs. specialize (Hm s Hs). unfold bind.
  destruct (m s) as [[a|e|] s1]; [|exact Hm|exact I].
  apply (Hk a s1 Hm).
Qed.

Lemma triple_tryCatch {A} (P : State -> Prop) (m : M A) (h : string -> M A)
    (Q : A -> State -> Prop) (E E' : State -> Prop) :
  triple P m Q E -> (forall e, triple E (h e) Q E') -> triple P (tryCatch m h) Q E'.
Proof.
  intros Hm Hh s Hs. specialize (Hm s Hs). unfold tryCatch.
  destruct (m s) as [[a|e|] s1]; [exact Hm| |exact I].
  apply (Hh e s1 Hm).
Qed.

Lemma triple_weaken {A} (P P' : State -> Prop) (m : M A)
    (Q Q' : A -> State -> Prop) (E E' : State -> Prop) :
  triple P m Q E -> (forall s, P' s -> P s) ->
  (forall a s, Q a s -> Q' a s) -> (forall s, E s -> E' s) ->
  triple P' m Q' E'.
Proof.
  intros Hm HP HQ HE s Hs. specialize (Hm s (HP s Hs)).
  destruct (m s) as [[a|e|] s1]; auto.
Qed.

Lemma triple_ret {A} (P : State -> Prop) (a : A) (E : State -> Prop) :
  triple P (ret a) (fun b s => b = a /\ P s) E.
Proof. intros s Hs. simpl. split; [reflexivity|exact Hs]. Qed.

Lemma triple_pure {A} (P : State -> Prop) (r : Result A) :
  triple P (liftResult r) (fun _ s => P s) P.
Proof. intros s Hs. unfold liftResult. destruct r; simpl; auto. Qed.

Lemma triple_get (P : State -> Prop) (E : State -> Prop) :
  triple P get (fun s0 s => s0 = s /\ P s) E.
Proof. intros s Hs. simpl. split; [reflexivity|exact Hs]. Qed.

Lemma triple_getFileSize (w : World) (p : string) (P : State -> Prop) :
  triple P (getFileSize w p) (fun _ s => P s) P.
Proof.
  intros s Hs. unfold getFileSize, bind, get, ret, throw. simpl.
  destruct (bool_decide (p ∈ files s)); simpl; exact Hs.
Qed.

Lemma triple_logChunkInfo (w : World) (chunks : list Chunk) (P : State -> Prop) :
  triple P (logChunkInfo w chunks) (fun _ s => P s) P.
Proof.
  induction chunks as [|c rest IH]; simpl.
  - intros s Hs. exact Hs.
  - eapply triple_bind; [apply triple_getFileSize|]. intros ?. exact IH.
Qed.

Variables (w : World) (present : gset string) (audioPath : string).
Hypothesis unlink_works : forall p, unlinkError w p = None.
Hypothesis cuts_work : forall k, clipError w k = None.

Lemma triple_safeDelete (p : string) (E : State -> Prop) :
  triple (accounted present audioPath) (safeDelete w p)
         (fun _ s => accounted present audioPath s) E.
Proof.
  intros s Hs. unfold safeDelete.
  destruct (guarded_unlink w p (fun err => "Failed to delete " +:+ p +:+ ": " +:+ err) s)
    as (s' & -> & Hcf & Hother & Hself & _).
  intros x Hx. rewrite Hcf.
  destruct (decide (x = p)) as [->|Hne]; [apply Hs, Hself, Hx|].
  apply Hs, Hother; assumption.
Qed.

Lemma triple_extractAudio :
  triple (accounted present audioPath) (extractAudio w audioPath)
         (fun _ s => accounted present audioPath s) (accounted present audioPath).
Proof.
  unfold extractAudio.
  eapply triple_bind with (Q := fun _ s => accounted present audioPath s).
  - intros s Hs. unfold writeFile, modify. simpl. intros x Hx. simpl in *.
    apply elem_of_union in Hx as [Hx|Hx]; [apply Hs, Hx|].
    apply elem_of_singleton in Hx. tauto.
  - intros ?. destruct (extractError w) as [err|].
    + eapply triple_bind; [apply triple_safeDelete|].
      intros ? s Hs. simpl. exact Hs.
    + intros s Hs. exact Hs.
Qed.

Lemma triple_cleanupFiles (s0 : State) (E : State -> Prop) :
  triple (fun s => s0 = s /\ accounted present audioPath s)
         (cleanupFiles w (audioPath :: chunkFiles s0))
         (fun _ s => cleaned present audioPath s) E.
Proof.
  intros s [<- Hs].
  destruct (cleanupFiles_total w (audioPath :: chunkFiles s0) s0)
    as (s' & -> & Hsub & Hcf & Hgone).
  intros x Hx.
  assert (Hnot : forall p, p ∈ audioPath :: chunkFiles s0 -> x <> p).
  { intros p Hp ->. exact (Hgone p Hp (unlink_works p) Hx). }
  destruct (Hs x (Hsub x Hx)) as [Hp|[->|Hc]].
  - split; [exact Hp|]. split.
    + apply Hnot. left.
    + rewrite Hcf. intros Hc. apply (Hnot x); [right; exact Hc|reflexivity].
  - exfalso. apply (Hnot audioPath); [left|reflexivity].
  - exfalso. apply (Hnot x); [right; exact Hc|reflexivity].
Qed.

(** The loop adds to the disk only files of descriptors it returns. *)
Lemma splitLoop_files outputDir baseName D C O fuel :
  forall startT idx chunks s res s',
    splitLoop w outputDir baseName D C O fuel startT idx chunks s = (Ok res, s') ->
    chunkFiles s' = chunkFiles s
    /\ forall x, x ∈ files s' ->
         x ∈ files s \/ exists c, c ∈ res /\ isOriginal c = false /\ path c = x.
Proof.
  induction fuel as [|fuel IH]; intros startT idx chunks s res s' Hrun; [discriminate|].
  simpl in Hrun. destruct (Qlt_bool startT D).
  - apply bind_Ok in Hrun as ([] & s1 & E1 & Hrun).
    destruct (ffmpegClip_written _ _ _ _ _ _ E1) as [Hf1 Hcf1].
    set (c := mkChunk (chunkPathOf outputDir baseName idx) startT
                      (Qmin (startT + C) D) false) in *.
    assert (Hnew : forall res', (exists more, res' = (chunks ++ [c]) ++ more) ->
              forall x, x ∈ files s1 ->
                x ∈ files s \/ exists c', c' ∈ res' /\ isOriginal c' = false /\ path c' = x).
    { intros res' [more ->] x Hx. rewrite Hf1 in Hx.
      apply elem_of_union in Hx as [Hx|Hx]; [left; exact Hx|].
      apply elem_of_singleton in Hx as ->. right. exists c.
      split; [|split; reflexivity].
      apply elem_of_app. left. apply elem_of_app. right. left. }
    destruct (Qlt_bool (D - (Qmin (startT + C) D - O)) (O * 2)).
    + injection Hrun as <- <-. split; [exact Hcf1|].
      apply Hnew. exists []. rewrite app_nil_r. reflexivity.
    + pose proof (splitLoop_extends _ _ _ _ _ _ _ _ _ _ _ _ _ Hrun) as (more & Hres & _).
      apply IH in Hrun as [Hcf Hfiles]. split; [congruence|].
      intros x Hx. destruct (Hfiles x Hx) as [Hx1|Hx1]; [|right; exact Hx1].
      apply (Hnew res); [exists more; exact Hres|exact Hx1].
  - injection Hrun as <- <-. split; [reflexivity|]. intros x Hx. left. exact Hx.
Qed.

Lemma triple_split fuel outputDir baseName C O :
  triple (accounted present audioPath)
         (splitAudioIntoChunks fuel w audioPath outputDir baseName C O)
         (fun chunks s =>
            forall x, x ∈ files s ->
              x ∈ present \/ x = audioPath \/ x ∈ chunkFiles s
              \/ exists c, c ∈ chunks /\ isOriginal c = false /\ path c = x)
         (accounted present audioPath).
Proof.
  intros s Hs. unfold splitAudioIntoChunks, bind, liftResult.
  destruct (ffprobeDuration w) as [D|e|]; [|exact Hs|exact I].
  destruct (Qle_bool D C).
  - simpl. intros x Hx. destruct (Hs x Hx) as [H|[H|H]]; tauto.
  - destruct (splitLoop w outputDir baseName D C O fuel 0 0%nat [] s) as [[res|e|] s'] eqn:E.
    + destruct (splitLoop_files _ _ _ _ _ _ _ _ _ _ _ _ E) as [Hcf Hfiles].
      intros x Hx. rewrite Hcf. destruct (Hfiles x Hx) as [H|H]; [|tauto].
      destruct (Hs x H) as [H'|[H'|H']]; tauto.
    + exfalso. apply splitLoop_throws in E as (k & Hk & _); [|intros j Hj; lia].
      rewrite cuts_work in Hk. discriminate.
    + exact I.
Qed.

Lemma triple_tryBlock fuel uploadsDir req :
  audioPath = audioPathOf uploadsDir req ->
  triple (accounted present audioPath) (tryBlock fuel w uploadsDir req)
         (fun _ s => cleaned present audioPath s) (accounted present audioPath).
Proof.
  intros Haudio. unfold tryBlock. rewrite <- Haudio.
  eapply triple_bind; [apply triple_extractAudio|]. intros ?.
  eapply triple_bind; [apply triple_pure|]. intros D. cbv beta.
  eapply triple_bind; [apply triple_getFileSize|]. intros size. cbv beta.
  eapply triple_bind; [apply triple_pure|]. intros config. cbv beta.
  eapply triple_bind with (Q := fun _ s => accounted present audioPath s).
  - destruct (needsChunkingOf D size (chunkDurationOf req)).
    + eapply triple_bind; [apply triple_split|]. intros chunks. cbv beta.
      eapply triple_bind with (Q := fun _ s => accounted present audioPath s).
      * intros s Hs. unfold trackChunkFiles, modify. simpl. intros x Hx. simpl in *.
        destruct (Hs x Hx) as [H|[H|[H|(c & Hc & Ho & Hp)]]]; [tauto|tauto| |].
        -- right. right. apply elem_of_app. left. exact H.
        -- right. right. apply elem_of_app. right.
           apply list_elem_of_fmap. exists c. split; [congruence|].
           apply list_elem_of_In, filter_In. split; [apply list_elem_of_In, Hc|].
           rewrite Ho. reflexivity.
      * intros ?. eapply triple_bind; [apply triple_logChunkInfo|]. intros ?.
        eapply triple_bind with (Q := fun _ s => accounted present audioPath s).
        -- intros s Hs. unfold promiseAll.
           destruct (firstRejection _ _); [exact Hs|].
           destruct (allValues _); [exact Hs|exact I].
        -- intros values s Hs. exact Hs.
    + eapply triple_bind; [apply triple_pure|]. intros transcription s Hs. exact Hs.
  - intros [allSegments totalDuration].
    eapply triple_bind; [apply triple_get|]. intros s0. cbv beta.
    eapply triple_bind; [apply triple_cleanupFiles|]. intros ? s Hs. exact Hs.
Qed.

End RouteEffects.

Section RouteExtras.
Import Merge Files Split Dispatch Normalize Route Hoare.
Local Open Scope eff_scope.

(** A run that answers, with ffmpeg cutting every chunk and [unlink] never
    failing, leaves nothing behind: whatever is on disk afterwards was there
    before the request, and it is neither the extracted audio nor one of
    the chunk files the route tracked.  This holds for the 200 and for the
    500 answers alike. *)
Theorem transcribe_leaves_no_temp_files :
  forall (fuel : nat) (w : World) (uploadsDir : string) (req : Request)
         (present : gset string) (resp : Response) (s' : State),
    (forall p, unlinkError w p = None) ->
    (forall k, clipError w k = None) ->
    transcribe fuel w uploadsDir req present = (Ok resp, s') ->
    forall x, x ∈ files s' ->
      x ∈ present /\ x <> audioPathOf uploadsDir req /\ x ∉ chunkFiles s'.
Proof.
  intros fuel w uploadsDir req present resp s' Hunlink Hclip Hrun.
  assert (Ht : triple (accounted present (audioPathOf uploadsDir req))
                 (tryCatch (tryBlock fuel w uploadsDir req) (catchBlock w uploadsDir req))
                 (fun _ s => cleaned present (audioPathOf uploadsDir req) s)
                 (fun _ => False)).
  { eapply triple_tryCatch.
    - apply triple_tryBlock; [exact Hunlink|exact Hclip|reflexivity].
    - intros e. unfold catchBlock.
      eapply triple_bind; [apply triple_get|]. intros s0. cbv beta.
      eapply triple_bind; [apply triple_cleanupFiles; exact Hunlink|].
      intros ? s Hs. exact Hs. }
  unfold transcribe in Hrun.
  specialize (Ht (mkState present [] [])). rewrite Hrun in Ht.
  apply Ht. intros x Hx. left. exact Hx.
Qed.

Lemma transcribe_leaves_no_temp_files_witness :
  exists resp s',
    transcribe 9 (Examples.world 870 (fun _ => None) (Examples.backendFailsAt 1))
               "/uploads" Examples.request {["/uploads/other.mp4"]} = (Ok resp, s')
    /\ forall x, x ∈ files s' ->
         x ∈ ({["/uploads/other.mp4"]} : gset string)
         /\ x <> Route.audioPathOf "/uploads" Examples.request
         /\ x ∉ chunkFiles s'.
Proof.
  destruct (transcribe 9 (Examples.world 870 (fun _ => None) (Examples.backendFailsAt 1))
                       "/uploads" Examples.request {["/uploads/other.mp4"]})
    as [r s'] eqn:E.
  assert (Hr : exists resp, r = Ok resp).
  { change r with (fst (r, s')). rewrite <- E. vm_compute. eexists. reflexivity. }
  destruct Hr as [resp ->]. exists resp, s'. split; [reflexivity|].
  apply (transcribe_leaves_no_temp_files 9
           (Examples.world 870 (fun _ => None) (Examples.backendFailsAt 1))
           "/uploads" Examples.request {["/uploads/other.mp4"]} resp s'
           (fun _ => eq_refl) (fun _ => eq_refl) E).
Defined.



Lemma bind_Diverge {A B} (m : M A) (k : A -> M B) s :
  fst (m s) = Diverge -> fst (bind m k s) = Diverge.
Proof. unfold bind. destruct (m s) as [[a|e|] s1]; simpl; congruence. Qed.

(** A request whose chunk duration is not longer than the 30 s overlap
    makes the handler cut chunks without end: for a source of at least
    [chunkDuration + 30] seconds it never answers. *)
Theorem transcribe_short_chunks_never_answers :
  forall (fuel : nat) (w : World) (uploadsDir : string) (req : Request)
         (present : gset string) (D : Q) (config : Config),
    extractError w = None -> ffprobeDuration w = Ok D ->
    transcriptionConfig w = Ok config -> (forall k, clipError w k = None) ->
    0 < chunkDurationOf req -> chunkDurationOf req <= 30 ->
    chunkDurationOf req + 30 <= D ->
    fst (transcribe fuel w uploadsDir req present) = Diverge.
Proof.
  intros fuel w uploadsDir req present D config Hext HD Hcfg Hclip HC0 HC30 HCD.
  unfold transcribe, tryCatch.
  assert (Htry : fst (tryBlock fuel w uploadsDir req (mkState present [] [])) = Diverge).
  { unfold tryBlock, extractAudio. rewrite Hext.
    unfold bind at 1. unfold bind at 1. unfold writeFile, modify, ret.
    unfold bind at 1. unfold getAudioDuration, liftResult. rewrite HD.
    unfold bind at 1. unfold getFileSize, bind at 1, get. simpl.
    rewrite bool_decide_eq_true_2
      by (apply elem_of_union; right; apply elem_of_singleton; reflexivity).
    unfold ret. unfold bind at 1. rewrite Hcfg.
    assert (Hneeds : needsChunkingOf D (statSize w (audioPathOf uploadsDir req))
                                     (chunkDurationOf req) = true).
    { unfold needsChunkingOf. apply orb_true_iff. right.
      apply Qlt_bool_iff. lra. }
    rewrite Hneeds.
    apply bind_Diverge, bind_Diverge.
    rewrite (split_unfold _ _ _ _ _ _ _ HD) by lra.
    apply splitLoop_diverges; try assumption. apply Qle_refl. }
  destruct (tryBlock fuel w uploadsDir req (mkState present [] [])) as [[resp|m|] s1];
    simpl in Htry; try discriminate. reflexivity.
Qed.

Lemma transcribe_short_chunks_never_answers_witness :
  fst (transcribe 1000 (Examples.quiet 1800) "/uploads"
                  (mkRequest "3f2a8c1e-5b7d-4e9a-8c6f-0d1e2f3a4b5c" (1 # 2)) ∅)
  = Diverge.
Proof.
  apply (transcribe_short_chunks_never_answers 1000 (Examples.quiet 1800) "/uploads"
           (mkRequest "3f2a8c1e-5b7d-4e9a-8c6f-0d1e2f3a4b5c" (1 # 2)) ∅ 1800
           (mkConfig None)); try reflexivity; vm_compute; discriminate.
Defined.

Lemma transcribe_metadata_witness :
  exists D,
    ffprobeDuration (Examples.quiet 180) = Ok D
    /\ false = needsChunkingOf D (statSize (Examples.quiet 180)
                                           (audioPathOf "/uploads" Examples.request))
                               (chunkDurationOf Examples.request)
    /\ 1%Z = chunksUsedOf false D (chunkDurationOf Examples.request).
Proof.
  destruct (transcribe 9 (Examples.quiet 180) "/uploads" Examples.request ∅)
    as [r s'] eqn:E.
  assert (Hr : exists transcript raw total, r = Ok (Json200 transcript raw total false 1%Z)).
  { change r with (fst (r, s')). rewrite <- E. vm_compute. eexists _, _, _. reflexivity. }
  destruct Hr as (transcript & raw & total & ->).
  exact (transcribe_metadata _ _ _ _ _ _ _ _ _ _ _ E).
Defined.

End RouteExtras.

(** *** More on cleanup, merge and normalisation *)

Section CleanupExtras.
Import Files Hoare.
Local Open Scope eff_scope.

Lemma cleanup_step (w : World) (filePath : string) (s : State) :
  tryCatch (unlinkIfExists w filePath)
           (fun err => consoleError ("Failed to clean up " +:+ filePath +:+ ": " +:+ err)) s
  = (Ok tt,
     if bool_decide (filePath ∈ files s) then
       match unlinkError w filePath with
       | None => mkState (files s ∖ {[filePath]}) (console s) (chunkFiles s)
       | Some e =>
           mkState (files s)
                   (console s ++ ["Failed to clean up " +:+ filePath +:+ ": " +:+ e])
                   (chunkFiles s)
       end
     else s).
Proof.
  unfold tryCatch, unlinkIfExists, bind, existsSync, unlinkSync, get, ret, bind, throw,
    modify, consoleError.
  simpl. destruct (bool_decide (filePath ∈ files s)) eqn:Hb; simpl; [|reflexivity].
  rewrite Hb. destruct (unlinkError w filePath); reflexivity.
Qed.

(** [cleanupFiles] is best effort and exact: it always returns normally; a
    file outside the list is untouched; a listed file is gone when its
    [unlink] succeeds and stays when it fails; and the console receives
    exactly one line per failed [unlink], in list order. *)
Theorem cleanupFiles_best_effort :
  forall (w : World) (filePaths : list string) (s : State),
    exists s',
      cleanupFiles w filePaths s = (Ok tt, s')
      /\ chunkFiles s' = chunkFiles s
      /\ (forall p, p ∈ files s' <->
            p ∈ files s /\ (p ∈ filePaths -> unlinkError w p <> None))
      /\ console s' = console s ++ omap (cleanupLine w s) filePaths.
Proof.
  intros w filePaths. induction filePaths as [|p rest IH]; intros s.
  - exists s. split; [reflexivity|]. split; [reflexivity|]. split.
    + intros p. split; [intros H; split; [exact H|]|tauto].
      intros Hp. apply elem_of_nil in Hp. contradiction.
    + simpl. rewrite app_nil_r. reflexivity.
  - pose proof (cleanup_step w p s) as E1.
    set (s1 := if bool_decide (p ∈ files s) then _ else s) in E1.
    destruct (IH s1) as (s2 & E2 & Hcf & Hfiles & Hlog).
    exists s2. split; [cbn [cleanupFiles]; rewrite (bind_step _ _ _ _ _ E1); exact E2|].
    assert (Hs1 : chunkFiles s1 = chunkFiles s
                  /\ (forall q, q ∈ files s1 <->
                        q ∈ files s /\ (q = p -> unlinkError w p <> None))
                  /\ console s1 = console s ++ option_list (cleanupLine w s p)
                  /\ (forall q, q ∈ rest -> cleanupLine w s1 q = cleanupLine w s q)).
    { unfold s1, cleanupLine. destruct (bool_decide (p ∈ files s)) eqn:Hb.
      - apply bool_decide_eq_true in Hb.
        destruct (unlinkError w p) as [e|] eqn:Ee; simpl.
        + split; [reflexivity|]. split; [|split; [reflexivity|reflexivity]].
          intros q. split; [intros Hq; split; [exact Hq|discriminate]|tauto].
        + split; [reflexivity|]. split; [|split; [rewrite app_nil_r; reflexivity|]].
          * intros q. rewrite elem_of_difference, elem_of_singleton.
            split; [intros [Hq Hne]; split; [exact Hq|tauto]|].
            intros [Hq Hne]. split; [exact Hq|]. intros ->. apply Hne; reflexivity.
          * intros q Hq. simpl.
            destruct (decide (q = p)) as [->|Hne].
            -- rewrite Ee. simpl.
               destruct (bool_decide (p ∈ files s ∖ {[p]})); destruct (bool_decide (p ∈ files s));
                 reflexivity.
            -- assert (bool_decide (q ∈ files s ∖ {[p]}) = bool_decide (q ∈ files s)) as ->;
                 [|reflexivity].
               apply bool_decide_ext. rewrite elem_of_difference, elem_of_singleton. tauto.
      - apply bool_decide_eq_false in Hb. simpl.
        split; [reflexivity|]. split; [|split; [rewrite app_nil_r; reflexivity|reflexivity]].
        intros q. split; [intros Hq; split; [exact Hq|]|tauto].
        intros ->. contradiction. }
    destruct Hs1 as (Hcf1 & Hfiles1 & Hlog1 & Hlines).
    split; [congruence|]. split.
    + intros q. rewrite Hfiles, Hfiles1, elem_of_cons.
      split.
      * intros [[Hq Hp] Hr]. split; [exact Hq|]. intros [->|Hin]; auto.
      * intros [Hq H]. split; [split; [exact Hq|]|]; auto.
        intros ->. apply H. left. reflexivity.
    + rewrite Hlog, Hlog1, <- app_assoc. f_equal.
      assert (omap (cleanupLine w s1) rest = omap (cleanupLine w s) rest) as ->.
      { clear -Hlines. induction rest as [|q rest IH]; [reflexivity|].
        cbn [omap list_omap]. rewrite (Hlines q) by left. rewrite IH; [reflexivity|].
        intros q' Hq'. apply Hlines. right. exact Hq'. }
      cbn [omap list_omap]. destruct (cleanupLine w s p); reflexivity.
Qed.

End CleanupExtras.

Section MergeExtras.
Import Merge Dispatch.

Lemma filter_sublist {A} (f : A -> bool) (l : list A) : List.filter f l `sublist_of` l.
Proof.
  induction l as [|x l IH]; simpl; [constructor|].
  destruct (f x); [apply sublist_skip|apply sublist_cons]; exact IH.
Qed.

(** A merge only selects: its result is [accumulated ++ newSegments] with
    some segments left out, in the same order and unmodified. *)
Theorem mergeChunkSegments_selects :
  forall (accumulated newSegments : list Segment) (chunkStartTime overlapSeconds : Q),
    mergeChunkSegments accumulated newSegments chunkStartTime overlapSeconds
    `sublist_of` accumulated ++ newSegments.
Proof.
  intros acc new t o. unfold mergeChunkSegments.
  destruct acc as [|a acc'].
  - simpl. reflexivity.
  - cbn [length Nat.eqb]. apply sublist_app; apply filter_sublist.
Qed.


Lemma merged_from_inputs acc new t o (seg : Segment) :
  seg ∈ mergeChunkSegments acc new t o -> seg ∈ acc \/ seg ∈ new.
Proof.
  unfold mergeChunkSegments. destruct (length acc =? 0)%nat; [right; assumption|].
  intros Hin. apply elem_of_app in Hin as [Hin|Hin];
    apply list_elem_of_In, filter_In in Hin as [Hin _]; [left|right];
    apply list_elem_of_In, Hin.
Qed.

(** Every segment of the merged transcript is a segment of some chunk,
    rebased by that chunk's start time: the merge loop invents nothing. *)
Theorem mergeLoop_provenance :
  forall (overlap : Q) (results : list Tagged) (seg : Segment),
    seg ∈ fst (mergeLoop overlap results) ->
    exists t, t ∈ results /\ seg ∈ adjustSegments (chunk t) (result t).
Proof.
  intros overlap results seg. unfold mergeLoop.
  assert (H : forall acc : list Segment * Q,
             seg ∈ fst (fold_left (mergeStep overlap) results acc) ->
             seg ∈ fst acc
             \/ exists t, t ∈ results /\ seg ∈ adjustSegments (chunk t) (result t)).
  { induction results as [|t results IH]; intros [acc total] Hin; simpl in *.
    - left. exact Hin.
    - apply IH in Hin as [Hin|(t' & Ht' & Hin)].
      + simpl in Hin. apply merged_from_inputs in Hin as [Hin|Hin]; [left; exact Hin|].
        right. exists t. split; [left|exact Hin].
      + right. exists t'. split; [right; exact Ht'|exact Hin]. }
  intros Hin. apply H in Hin as [Hin|Hin]; [|exact Hin].
  apply elem_of_nil in Hin. contradiction.
Qed.

Lemma mergeLoop_provenance_witness :
  exists t, t ∈ [Examples.earlier; Examples.later]
            /\ mkSegment (210 # 1) (2104 # 10) "second" "B"
               ∈ adjustSegments (chunk t) (result t).
Proof.
  apply (mergeLoop_provenance 30 [Examples.earlier; Examples.later]
           (mkSegment (210 # 1) (2104 # 10) "second" "B")).
  apply list_elem_of_In. vm_compute. right. left. reflexivity.
Defined.

Lemma mergeLoop_snoc overlap (results : list Tagged) (t : Tagged) :
  mergeLoop overlap (results ++ [t]) = mergeStep overlap (mergeLoop overlap results) t.
Proof. unfold mergeLoop. rewrite fold_left_app. reflexivity. Qed.

(** The transcript of the last chunk is never cut: each of its segments
    that starts no earlier than one second before the chunk does is in the
    merged transcript, rebased. *)
Theorem mergeLoop_keeps_last_chunk :
  forall (overlap : Q) (results : list Tagged) (t : Tagged) (seg : Segment),
    seg ∈ segments (result t) -> -1 <= start seg ->
    mkSegment (start seg + startTime (chunk t)) (end_ seg + startTime (chunk t))
              (text seg) (speaker seg)
    ∈ fst (mergeLoop overlap (results ++ [t])).
Proof.
  intros overlap results t seg Hseg Hstart.
  rewrite mergeLoop_snoc. destruct (mergeLoop overlap results) as [acc total]. simpl.
  apply list_elem_of_In, kept_new.
  - unfold adjustSegments. apply in_map_iff. exists seg.
    split; [reflexivity|apply list_elem_of_In, Hseg].
  - simpl. lra.
Qed.

Lemma mergeLoop_keeps_last_chunk_witness :
  mkSegment (0 + 210) ((4 # 10) + 210) "second" "B"
  ∈ fst (mergeLoop 30 ([Examples.earlier] ++ [Examples.later])).
Proof.
  apply (mergeLoop_keeps_last_chunk 30 [Examples.earlier] Examples.later
           (mkSegment 0 (4 # 10) "second" "B")).
  - left.
  - discriminate.
Defined.

(** A segment of the accumulated transcript that reaches more than one
    second past the start of the next chunk does not survive that merge,
    whether or not the next chunk reports it again. *)
Theorem mergeChunkSegments_drops_overhang :
  forall (accumulated newSegments : list Segment) (chunkStartTime overlapSeconds : Q)
         (seg : Segment),
    accumulated <> [] ->
    chunkStartTime + 1 < end_ seg ->
    seg ∈ mergeChunkSegments accumulated newSegments chunkStartTime overlapSeconds ->
    seg ∈ newSegments /\ chunkStartTime - 1 <= start seg.
Proof.
  intros acc new t o seg Hne Hend Hin.
  rewrite mergeChunkSegments_nonempty in Hin by exact Hne.
  apply elem_of_app in Hin as [Hin|Hin];
    apply list_elem_of_In, filter_In in Hin as [Hin Hk].
  - unfold keepExisting in Hk. apply Qle_bool_iff in Hk. lra.
  - unfold keepNew in Hk. apply Qle_bool_iff in Hk.
    split; [apply list_elem_of_In, Hin|exact Hk].
Qed.

Lemma mergeChunkSegments_drops_overhang_witness :
  mkSegment 210 250 "long" "B" ∈ [mkSegment 210 250 "long" "B"]
  /\ 210 - 1 <= start (mkSegment 210 250 "long" "B").
Proof.
  apply (mergeChunkSegments_drops_overhang
           [mkSegment 200 205 "short" "A"] [mkSegment 210 250 "long" "B"] 210 30
           (mkSegment 210 250 "long" "B")).
  - discriminate.
  - reflexivity.
  - apply list_elem_of_In. vm_compute. right. left. reflexivity.
Defined.

(** The reported total duration bounds the end of every chunk as its own
    result states it, is never negative, and is attained by a chunk unless
    it is zero. *)
Theorem mergeLoop_total_duration :
  forall (overlap : Q) (results : list Tagged),
    0 <= snd (mergeLoop overlap results)
    /\ (forall t, t ∈ results ->
          duration (result t) + startTime (chunk t) <= snd (mergeLoop overlap results))
    /\ (snd (mergeLoop overlap results) == 0
        \/ exists t, t ∈ results
             /\ snd (mergeLoop overlap results) == duration (result t) + startTime (chunk t)).
Proof.
  intros overlap results. unfold mergeLoop.
  assert (H : forall acc : list Segment * Q,
    snd acc <= snd (fold_left (mergeStep overlap) results acc)
    /\ (forall t, t ∈ results ->
          duration (result t) + startTime (chunk t)
          <= snd (fold_left (mergeStep overlap) results acc))
    /\ (snd (fold_left (mergeStep overlap) results acc) == snd acc
        \/ exists t, t ∈ results
             /\ snd (fold_left (mergeStep overlap) results acc)
                == duration (result t) + startTime (chunk t))).
  { induction results as [|t results IH]; intros [acc total].
    - cbn [fold_left snd]. split; [apply Qle_refl|]. split; [|left; reflexivity].
      intros t Ht. apply elem_of_nil in Ht. contradiction.
    - cbn [fold_left].
      assert (Hsnd : snd (mergeStep overlap (acc, total) t)
                     = Qmax total (duration (result t) + startTime (chunk t)))
        by reflexivity.
      destruct (IH (mergeStep overlap (acc, total) t)) as (Hge & Hall & Hatt).
      rewrite Hsnd in Hge, Hatt. cbn [snd].
      split; [|split].
      + eapply Qle_trans; [apply Q.le_max_l|exact Hge].
      + intros t' Ht'. apply elem_of_cons in Ht' as [->|Ht']; [|apply Hall, Ht'].
        eapply Qle_trans; [apply Q.le_max_r|exact Hge].
      + destruct Hatt as [Heq|(t' & Ht' & Heq)].
        * destruct (Q.max_spec total (duration (result t) + startTime (chunk t)))
            as [[_ Hm]|[_ Hm]]; rewrite Hm in Heq.
          -- right. exists t. split; [left|exact Heq].
          -- left. exact Heq.
        * right. exists t'. split; [right; exact Ht'|exact Heq]. }
  destruct (H ([], 0)) as (Hge & Hall & Hatt). cbn [snd] in *.
  split; [exact Hge|]. split; [exact Hall|exact Hatt].
Qed.

End MergeExtras.

Section NormalizeExtras.
Import Normalize.

(** The processed transcript has one entry per segment, numbered from 0
    in order, with [start], [end] and [text] copied and a speaker that is
    never empty. *)
Theorem processTranscription_entries :
  forall (segs : list Segment) (config : Config),
    length (processTranscription segs config) = length segs
    /\ forall i o, processTranscription segs config !! i = Some o ->
         Out.id o = i /\ Out.speaker o <> ""
         /\ exists seg, segs !! i = Some seg
              /\ Out.start o = start seg /\ Out.end_ o = end_ seg
              /\ Out.text o = text seg.
Proof.
  intros segs config. split; [apply length_mapSegments|].
  intros i o Ho.
  destruct (segs !! i) as [seg|] eqn:Hi.
  - rewrite (processTranscription_lookup segs config i seg Hi) in Ho.
    injection Ho as <-. simpl. split; [reflexivity|]. split.
    + apply truthy_nonempty. unfold resolved.
      destruct (isGenericLabel (speaker seg)) eqn:Hg.
      * unfold assignedIn.
        destruct (rankOf (speaker seg) (firstSeen (codes segs))) as [k|] eqn:R;
          [apply labelAt_truthy|].
        exfalso. apply rankOf_None in R. apply R.
        destruct (code_has_rank segs i seg Hi Hg) as [k Hk].
        eapply list_elem_of_lookup_2, Hk.
      * apply orElse_truthy. reflexivity.
    + exists seg. repeat split; reflexivity.
  - exfalso. apply lookup_ge_None in Hi.
    apply lookup_lt_Some in Ho. unfold processTranscription in Ho.
    rewrite length_mapSegments in Ho. lia.
Qed.

End NormalizeExtras.

(** *** Request validation *)

Section SecurityFacts.
Import Normalize Route Security.

Lemma prefix_append (dir rest : string) : String.prefix dir (dir +:+ rest) = true.
Proof.
  induction dir as [|c dir IH]; simpl; [destruct rest; reflexivity|].
  destruct (Ascii.ascii_dec c c); [exact IH|congruence].
Qed.

Lemma prefix_refl (dir : string) : String.prefix dir dir = true.
Proof.
  induction dir as [|c dir IH]; simpl; [reflexivity|].
  destruct (Ascii.ascii_dec c c); [exact IH|congruence].
Qed.

Lemma append_empty_r (s : string) : s +:+ "" = s.
Proof.
  induction s as [|c s IH]; [reflexivity|].
  change (String c (s +:+ "") = String c s). f_equal. exact IH.
Qed.

Lemma prefix_head_ne (a b : Ascii.ascii) (s1 s2 : string) :
  a <> b -> String.prefix (String a s1) (String b s2) = false.
Proof. intros Hne. simpl. destruct (Ascii.ascii_dec a b); [contradiction|reflexivity]. Qed.

(** A needle whose first character no class of the pattern admits cannot
    start inside a string that matches the pattern. *)
Lemma includes_after_pattern (bad : Ascii.ascii) (needle' : string) :
  (forall cls, matchesClass cls bad = false) ->
  forall pattern s tail,
    matchesPattern pattern s = true ->
    includes (String bad needle') (s +:+ tail) = includes (String bad needle') tail.
Proof.
  intros Hbad pattern. induction pattern as [|cls pattern IH]; intros s tail Hm.
  - destruct s; [reflexivity|discriminate].
  - destruct s as [|c s]; [discriminate|].
    simpl in Hm. apply andb_true_iff in Hm as [Hc Hm].
    assert (Hne : bad <> c) by (intros <-; rewrite Hbad in Hc; discriminate).
    change (String.prefix (String bad needle') (String c (s +:+ tail))
            || includes (String bad needle') (s +:+ tail)
            = includes (String bad needle') tail).
    rewrite (prefix_head_ne _ _ _ _ Hne). apply IH, Hm.
Qed.

Lemma matchesPattern_length pattern :
  forall s, matchesPattern pattern s = true -> String.length s = length pattern.
Proof.
  induction pattern as [|cls pattern IH]; intros [|c s] Hm; try discriminate; [reflexivity|].
  simpl in Hm. apply andb_true_iff in Hm as [_ Hm]. simpl. rewrite (IH s Hm). reflexivity.
Qed.

Lemma isValidSessionId_pattern (sessionId : string) :
  isValidSessionId sessionId = true -> matchesPattern uuidPattern sessionId = true.
Proof. unfold isValidSessionId. destruct (negb (truthy sessionId)); [discriminate|auto]. Qed.

(** A string made of a valid session id and a dot-free suffix is a valid
    file name. *)
Lemma session_name_valid (sessionId suffix : string) :
  isValidSessionId sessionId = true ->
  includes ".." suffix = false -> includes "/" suffix = false ->
  includes "\" suffix = false ->
  includes (String Ascii.zero EmptyString) suffix = false ->
  (String.length suffix <= 200)%nat ->
  isValidFilename (sessionId +:+ suffix) = true.
Proof.
  intros Hsid H1 H2 H3 H4 Hlen.
  apply isValidSessionId_pattern in Hsid.
  pose proof (matchesPattern_length _ _ Hsid) as Hl. change (length uuidPattern) with 36%nat in Hl.
  unfold isValidFilename.
  assert (Ht : truthy (sessionId +:+ suffix) = true).
  { destruct sessionId; [discriminate|reflexivity]. }
  rewrite Ht. cbn [negb].
  assert (Hskip : forall needle,
            needle ∈ [".."; "/"; "\"; String Ascii.zero EmptyString] ->
            includes needle (sessionId +:+ suffix) = includes needle suffix).
  { intros needle Hin.
    repeat (apply elem_of_cons in Hin as [->|Hin];
            [apply includes_after_pattern with (pattern := uuidPattern);
             [intros []; reflexivity|exact Hsid]|]).
    apply elem_of_nil in Hin. contradiction. }
  rewrite !Hskip by (repeat first [left|right]).
  rewrite H1, H2, H3, H4. cbn [orb].
  rewrite length_append, Hl.
  destruct (255 <? 36 + String.length suffix)%nat eqn:E; [|reflexivity].
  apply Nat.ltb_lt in E. lia.
Qed.

Lemma safeUploadPath_valid (uploadsDir filename : string) :
  isValidFilename filename = true ->
  safeUploadPath uploadsDir filename = Some (pathJoin uploadsDir filename).
Proof.
  intros Hv. unfold safeUploadPath. rewrite Hv. cbn [negb].
  unfold pathJoin. destruct (String.eqb filename ".").
  - rewrite prefix_refl. reflexivity.
  - rewrite prefix_append. reflexivity.
Qed.

Lemma session_suffix_not_dot (sessionId suffix : string) :
  isValidSessionId sessionId = true -> String.eqb (sessionId +:+ suffix) "." = false.
Proof.
  intros Hsid.
  pose proof (matchesPattern_length _ _ (isValidSessionId_pattern _ Hsid)) as Hl.
  change (length uuidPattern) with 36%nat in Hl.
  apply String.eqb_neq. intros Heq.
  apply (f_equal String.length) in Heq. rewrite length_append, Hl in Heq.
  simpl in Heq. lia.
Qed.

Lemma session_audio_path (uploadsDir sessionId : string) :
  isValidSessionId sessionId = true ->
  safeUploadPath uploadsDir (sessionId +:+ ".mp3")
  = Some (uploadsDir +:+ "/" +:+ sessionId +:+ ".mp3").
Proof.
  intros Hsid. rewrite safeUploadPath_valid.
  - unfold pathJoin. rewrite (session_suffix_not_dot _ _ Hsid). reflexivity.
  - apply session_name_valid; try reflexivity; [exact Hsid|simpl; lia].
Qed.

(** Every valid session id is 36 characters long and is itself a valid
    file name; the audio path and the frames directory derived from it are
    accepted and lie directly inside the upload directory. *)
Theorem valid_session_paths :
  forall (uploadsDir sessionId : string) (chunkMinutes : Q),
    isValidSessionId sessionId = true ->
    String.length sessionId = 36%nat
    /\ isValidFilename sessionId = true
    /\ safeUploadPath uploadsDir (sessionId +:+ ".mp3")
       = Some (audioPathOf uploadsDir (mkRequest sessionId chunkMinutes))
    /\ safeFramesPath uploadsDir sessionId
       = Some (uploadsDir +:+ "/" +:+ sessionId +:+ "_frames").
Proof.
  intros uploadsDir sessionId chunkMinutes Hsid.
  pose proof (matchesPattern_length _ _ (isValidSessionId_pattern _ Hsid)) as Hl.
  change (length uuidPattern) with 36%nat in Hl.
  assert (Hself : isValidFilename sessionId = true).
  { rewrite <- (append_empty_r sessionId).
    apply session_name_valid; try reflexivity; [exact Hsid|simpl; lia]. }
  split; [exact Hl|]. split; [exact Hself|]. split.
  - apply session_audio_path, Hsid.
  - unfold safeFramesPath. rewrite Hself. cbn [negb].
    unfold pathJoin. rewrite (session_suffix_not_dot _ _ Hsid).
    rewrite prefix_append. reflexivity.
Qed.


Lemma valid_session_paths_witness :
  safeUploadPath "/srv/uploads" ("3f2a8c1e-5b7d-4e9a-8c6f-0d1e2f3a4b5c" +:+ ".mp3")
  = Some "/srv/uploads/3f2a8c1e-5b7d-4e9a-8c6f-0d1e2f3a4b5c.mp3".
Proof.
  apply (valid_session_paths "/srv/uploads" "3f2a8c1e-5b7d-4e9a-8c6f-0d1e2f3a4b5c" 4).
  reflexivity.
Defined.

(** [safeUploadPath] accepts exactly the valid file names, and what it
    returns is the upload directory followed by a slash and the name, which
    holds no further slash; the one exception is the name ["."], which it
    accepts and resolves to the upload directory itself. *)
Theorem safeUploadPath_contained :
  forall (uploadsDir filename : string),
    (isValidFilename filename = false -> safeUploadPath uploadsDir filename = None)
    /\ (isValidFilename filename = true ->
        includes "/" filename = false /\ includes ".." filename = false
        /\ safeUploadPath uploadsDir filename
           = Some (if String.eqb filename "." then uploadsDir
                   else uploadsDir +:+ "/" +:+ filename)).
Proof.
  intros uploadsDir filename. split.
  - intros Hv. unfold safeUploadPath. rewrite Hv. reflexivity.
  - intros Hv.
    assert (Hinc : includes "/" filename = false /\ includes ".." filename = false).
    { unfold isValidFilename in Hv.
      destruct (negb (truthy filename)); [discriminate|].
      destruct (includes ".." filename); [discriminate|].
      destruct (includes "/" filename); [discriminate|]. split; reflexivity. }
    split; [apply Hinc|]. split; [apply Hinc|].
    rewrite (safeUploadPath_valid uploadsDir filename Hv). reflexivity.
Qed.


Lemma isValidFilename_truthy (filename : string) :
  isValidFilename filename = true -> truthy filename = true.
Proof. unfold isValidFilename. destruct (truthy filename); [reflexivity|discriminate]. Qed.

(** The handler of [POST /transcribe] goes on to its [try] block exactly
    when the file name is valid and the session id is a UUID; its fourth
    check, ["Invalid file path"], never fires. *)
Theorem validateTranscribe_decides :
  forall (uploadsDir sessionId filename : string),
    (validateTranscribe uploadsDir sessionId filename = None <->
     isValidFilename filename = true /\ isValidSessionId sessionId = true)
    /\ validateTranscribe uploadsDir sessionId filename <> Some "Invalid file path".
Proof.
  intros uploadsDir sessionId filename.
  assert (Hgood : isValidFilename filename = true -> isValidSessionId sessionId = true ->
            validateTranscribe uploadsDir sessionId filename = None).
  { intros Hf Hs. unfold validateTranscribe.
    rewrite (isValidFilename_truthy _ Hf).
    assert (truthy sessionId = true) as ->.
    { unfold isValidSessionId in Hs. destruct (truthy sessionId); [reflexivity|discriminate]. }
    rewrite Hf, Hs. cbn [negb orb].
    rewrite (safeUploadPath_valid uploadsDir filename Hf).
    rewrite (session_audio_path uploadsDir sessionId Hs).
    reflexivity. }
  assert (Hbad : isValidFilename filename = false \/ isValidSessionId sessionId = false ->
            exists msg, validateTranscribe uploadsDir sessionId filename = Some msg
                        /\ msg <> "Invalid file path").
  { intros Hor. unfold validateTranscribe.
    destruct (negb (truthy sessionId) || negb (truthy filename));
      [eexists; split; [reflexivity|discriminate]|].
    destruct (isValidFilename filename); cbn [negb];
      [|eexists; split; [reflexivity|discriminate]].
    destruct (isValidSessionId sessionId); cbn [negb];
      [|eexists; split; [reflexivity|discriminate]].
    destruct Hor; discriminate. }
  destruct (isValidFilename filename) eqn:Hf; destruct (isValidSessionId sessionId) eqn:Hs.
  - rewrite (Hgood eq_refl eq_refl). split; [tauto|discriminate].
  - destruct Hbad as (msg & -> & Hmsg); [right; reflexivity|].
    split; [split; [discriminate|intros [_ ?]; discriminate]|congruence].
  - destruct Hbad as (msg & -> & Hmsg); [left; reflexivity|].
    split; [split; [discriminate|intros [? _]; discriminate]|congruence].
  - destruct Hbad as (msg & -> & Hmsg); [left; reflexivity|].
    split; [split; [discriminate|intros [? _]; discriminate]|congruence].
Qed.

End SecurityFacts.

(** *** Frame extraction *)

Section FramesFacts.
Import Files Frames.
Local Open Scope eff_scope.

#[local] Instance numLe_trans : Transitive numLe.
Proof.
  intros a b c. unfold numLe. rewrite !Qle_bool_iff. apply Qle_trans.
Qed.

#[local] Instance numLe_total : Total numLe.
Proof.
  intros a b. unfold numLe. rewrite !Qle_bool_iff.
  destruct (Qlt_le_dec a b) as [H|H]; [left; apply Qlt_le_weak, H|right; exact H].
Qed.

Lemma grabFrame_Ok fw w i p s u s' :
  grabFrame fw w i p s = (Ok u, s') -> frameError fw i = None.
Proof.
  unfold grabFrame. intros H. apply bind_Ok in H as (? & s1 & _ & H).
  destruct (frameError fw i) as [e|]; [|reflexivity].
  apply bind_Ok in H as (? & ? & _ & H). discriminate.
Qed.

(** The frames the loop returns: one per timestamp, in order, numbered
    from the position plus one. *)
Lemma grabAll_Ok fw w outputDir timestamps :
  forall i frames s res s',
    grabAll fw w outputDir i timestamps frames s = (Ok res, s') ->
    res = frames ++ imap (fun k t => mkFrame (i + k + 1) t
                                       (outputDir +:+ "/" +:+ frameName (i + k))
                                       (frameName (i + k))) timestamps.
Proof.
  induction timestamps as [|t rest IH]; intros i frames s res s' H; simpl in H.
  - injection H as <- _. simpl. rewrite app_nil_r. reflexivity.
  - apply bind_Ok in H as (? & s1 & _ & H). apply IH in H as ->.
    rewrite <- app_assoc. f_equal. simpl. rewrite Nat.add_0_r. f_equal.
    apply imap_ext. intros k y _. unfold compose.
    replace (i + S k)%nat with (S i + k)%nat by lia. reflexivity.
Qed.

Lemma grabAll_total fw w outputDir timestamps :
  (forall i, frameError fw i = None) ->
  forall i frames s, exists res s',
    grabAll fw w outputDir i timestamps frames s = (Ok res, s').
Proof.
  intros Hok. induction timestamps as [|t rest IH]; intros i frames s; simpl.
  - eexists _, _. reflexivity.
  - unfold bind at 1, grabFrame, bind at 1, writeFile, modify. rewrite (Hok i). simpl.
    apply IH.
Qed.

Lemma drawn_within fw (lo hi : Q) (n : nat) (t : Q) :
  lo <= hi -> (forall i, 0 <= random fw i /\ random fw i <= 1) ->
  t ∈ drawTimestamps fw lo hi n -> lo <= t /\ t <= hi.
Proof.
  intros Hlh Hr Ht. unfold drawTimestamps in Ht.
  apply list_elem_of_In, in_map_iff in Ht as (i & <- & _).
  destruct (Hr i) as [H0 H1].
  assert (0 <= random fw i * (hi - lo)) by (apply Qmult_le_0_compat; lra).
  assert (random fw i * (hi - lo) <= 1 * (hi - lo))
    by (apply Qmult_le_compat_r; lra).
  lra.
Qed.

(** When [extractFrames] returns, it returns exactly [numFrames] frames;
    the frame at position [i] is numbered [i + 1] and stored as
    [frame_<i+1>.jpg] in the output directory; the timestamps are the drawn
    ones in ascending order; and, for a duration that is not negative and
    random values in [[0, 1]], every timestamp lies in the middle 90% of
    the video.  It does return when ffprobe and ffmpeg do not fail. *)
Theorem extractFrames_frames :
  forall (fw : FrameWorld) (w : World) (outputDir : string) (numFrames : nat) (D : Q),
    videoDuration fw = Ok D ->
    (forall s frames s',
        extractFrames fw w outputDir numFrames s = (Ok frames, s') ->
        length frames = numFrames
        /\ (forall i f, frames !! i = Some f ->
              index f = (i + 1)%nat
              /\ filename f = frameName i
              /\ path f = outputDir +:+ "/" +:+ frameName i)
        /\ (forall i j a b, (i < j)%nat -> frames !! i = Some a -> frames !! j = Some b ->
              timestamp a <= timestamp b)
        /\ (timestamp <$> frames)
           ≡ₚ drawTimestamps fw (D * (5 # 100)) (D * (95 # 100)) numFrames
        /\ (0 <= D -> (forall i, 0 <= random fw i /\ random fw i <= 1) ->
            forall f, f ∈ frames ->
              D * (5 # 100) <= timestamp f /\ timestamp f <= D * (95 # 100)))
    /\ ((forall i, frameError fw i = None) ->
        forall s, exists frames s',
          extractFrames fw w outputDir numFrames s = (Ok frames, s')).
Proof.
  intros fw w outputDir numFrames D HD.
  set (drawn := drawTimestamps fw (D * (5 # 100)) (D * (95 # 100)) numFrames).
  assert (Hunf : forall s, extractFrames fw w outputDir numFrames s
                           = grabAll fw w outputDir 0 (merge_sort numLe drawn) [] s).
  { intros s. unfold extractFrames, bind, liftResult. rewrite HD. reflexivity. }
  split.
  - intros s frames s' Hrun. rewrite Hunf in Hrun. apply grabAll_Ok in Hrun.
    simpl in Hrun.
    assert (Hts : timestamp <$> frames = merge_sort numLe drawn).
    { apply list_eq. intros i. rewrite list_lookup_fmap, Hrun, list_lookup_imap.
      destruct (merge_sort numLe drawn !! i); reflexivity. }
    assert (Hlen : length frames = numFrames).
    { rewrite <- (length_fmap timestamp), Hts, merge_sort_Permutation.
      unfold drawn, drawTimestamps. rewrite length_map, length_seq. reflexivity. }
    split; [exact Hlen|]. split; [|split; [|split]].
    + intros i f Hi. rewrite Hrun in Hi. rewrite list_lookup_imap in Hi.
      destruct (merge_sort numLe drawn !! i); [|discriminate].
      injection Hi as <-. simpl. repeat split; reflexivity.
    + intros i j a b Hij Ha Hb.
      assert (Hs : StronglySorted numLe (timestamp <$> frames))
        by (rewrite Hts; apply StronglySorted_merge_sort; apply _).
      apply (proj1 (StronglySorted_lookup numLe _)) with (i := i) (j := j) (a := timestamp a)
        (b := timestamp b) in Hs.
      * apply Qle_bool_iff, Hs.
      * exact Hij.
      * rewrite list_lookup_fmap, Ha. reflexivity.
      * rewrite list_lookup_fmap, Hb. reflexivity.
    + rewrite Hts. apply merge_sort_Permutation.
    + intros HD0 Hr f Hf.
      apply (drawn_within fw (D * (5 # 100)) (D * (95 # 100)) numFrames).
      * lra.
      * exact Hr.
      * fold drawn. rewrite <- (merge_sort_Permutation numLe drawn), <- Hts.
        apply list_elem_of_fmap_2, Hf.
  - intros Hok s. rewrite Hunf. apply grabAll_total, Hok.
Qed.

Lemma extractFrames_frames_witness :
  exists frames s',
    extractFrames (mkFrameWorld (Ok 100) (fun _ => 1 # 2) (fun _ => None))
                  (Examples.quiet 100) "/uploads/frames" 24 (mkState ∅ [] [])
    = (Ok frames, s').
Proof.
  apply (extractFrames_frames (mkFrameWorld (Ok 100) (fun _ => 1 # 2) (fun _ => None))
                              (Examples.quiet 100) "/uploads/frames" 24 100 eq_refl).
  intros i. reflexivity.
Defined.

End FramesFacts.

(** *** Ranked frame numbers *)

Section RankingFacts.
Import Ranking.

Lemma filterSeen_valid (totalFrames : nat) (numbers : list nat) :
  forall seen,
    NoDup (filterSeen totalFrames seen numbers)
    /\ forall n, n ∈ filterSeen totalFrames seen numbers ->
         (1 <= n <= totalFrames)%nat /\ (n ∉ seen) /\ n ∈ numbers.
Proof.
  induction numbers as [|m rest IH]; intros seen; cbn [filterSeen].
  - split; [constructor|]. intros n Hn. apply elem_of_nil in Hn. contradiction.
  - destruct ((1 <=? m)%nat && (m <=? totalFrames)%nat && negb (bool_decide (m ∈ seen)))
      eqn:E.
    + apply andb_true_iff in E as [E Hseen]. apply andb_true_iff in E as [H1 H2].
      apply Nat.leb_le in H1, H2. apply negb_true_iff, bool_decide_eq_false in Hseen.
      destruct (IH (seen ∪ {[m]})) as [Hnd Hin]. split.
      * constructor; [|exact Hnd]. intros Hm. apply Hin in Hm as (_ & Hm & _).
        apply Hm, elem_of_union. right. apply elem_of_singleton. reflexivity.
      * intros n Hn. apply elem_of_cons in Hn as [->|Hn].
        -- split; [lia|]. split; [exact Hseen|left].
        -- apply Hin in Hn as (Hb & Hs & Hr). split; [exact Hb|]. split; [|right; exact Hr].
           intros Hs'. apply Hs, elem_of_union. left. exact Hs'.
    + destruct (IH seen) as [Hnd Hin]. split; [exact Hnd|].
      intros n Hn. apply Hin in Hn as (Hb & Hs & Hr). split; [exact Hb|].
      split; [exact Hs|right; exact Hr].
Qed.

Lemma take_valid (totalFrames count : nat) (numbers : list nat) :
  let r := take count (validNumbers totalFrames numbers) in
  NoDup r /\ (length r <= count)%nat
  /\ forall n, n ∈ r -> (1 <= n <= totalFrames)%nat /\ n ∈ numbers.
Proof.
  destruct (filterSeen_valid totalFrames numbers ∅) as [Hnd Hin].
  simpl. split; [|split].
  - eapply sublist_NoDup; [exact Hnd|apply sublist_take].
  - rewrite length_take. lia.
  - intros n Hn. apply elem_of_take in Hn as (i & Hi & _).
    apply list_elem_of_lookup_2, Hin in Hi as (Hb & _ & Hr). split; assumption.
Qed.

(** The ranked frame numbers are pairwise distinct frame numbers between 1
    and [totalFrames], at most [count] of them, each one read from the
    text; the one exception is a text without any digit, for which the
    answer is [1, 2, ..., count] whatever [totalFrames] is. *)
Theorem extractRankedFrames_valid :
  forall (rankingMatch : option (option (list nat))) (numbers : option (list nat))
         (count totalFrames : nat),
    let ranked := extractRankedFrames rankingMatch numbers count totalFrames in
    (NoDup ranked /\ (length ranked <= count)%nat
     /\ forall n, n ∈ ranked -> (1 <= n <= totalFrames)%nat)
    \/ (numbers = None /\ ranked = seq 1 count).
Proof.
  intros rankingMatch numbers count totalFrames.
  assert (Hfb : let fallback :=
                  match numbers with
                  | None => map (fun i => (i + 1)%nat) (seq 0 count)
                  | Some numbers => take count (validNumbers totalFrames numbers)
                  end in
            (NoDup fallback /\ (length fallback <= count)%nat
             /\ forall n, n ∈ fallback -> (1 <= n <= totalFrames)%nat)
            \/ (numbers = None /\ fallback = seq 1 count)).
  { destruct numbers as [ns|]; simpl.
    - left. destruct (take_valid totalFrames count ns) as (H1 & H2 & H3).
      split; [exact H1|]. split; [exact H2|]. intros n Hn. apply H3, Hn.
    - right. split; [reflexivity|]. rewrite <- fmap_S_seq.
      apply list_fmap_ext. intros i x _. lia. }
  unfold extractRankedFrames. simpl in *.
  destruct rankingMatch as [[ns|]|]; try exact Hfb.
  destruct (count <=? length (validNumbers totalFrames ns))%nat; [|exact Hfb].
  left. destruct (take_valid totalFrames count ns) as (H1 & H2 & H3).
  split; [exact H1|]. split; [exact H2|]. intros n Hn. apply H3, Hn.
Qed.

End RankingFacts.
